(** * The PL/SQL chunker [split_plsql_into_blocks]

    A shallow embedding of [plsql_chunker_Version4.py] and the properties
    of its two passes: the block segmenter (a state machine over the
    statements returned by the statement splitter) and the size bounder
    (re-chunking of over-sized blocks along semicolons).

    Python strings are modelled as lists of characters.  A character is an
    8-bit code point ([ascii], the Latin-1 range): the whitespace class of
    [str.strip] and of the regex class [\s], the word class [\w] and the
    case folding of [re.IGNORECASE] are the ones Python uses on that range.
    The integer [max_chunk_size] is a [Z], since nothing in the source
    keeps it positive. *)

From Stdlib Require String.
From Stdlib Require Import List Ascii ZArith Lia Bool Arith.
Import ListNotations String.StringSyntax.

Local Open Scope list_scope.
Local Open Scope bool_scope.

(** ** Strings *)

Module Str.

Definition str : Type := list ascii.

(** A literal of the source, as a list of characters. *)
Definition lit (s : String.string) : str := String.list_ascii_of_string s.
Arguments lit s%_string_scope.

Definition code (c : ascii) : nat := nat_of_ascii c.

(** [str.isspace] on one character, which is also the regex class [\s]:
    TAB, LF, VT, FF, CR, the separators FS, GS, RS, US, the space, NEL and
    the no-break space. *)
Definition is_space (c : ascii) : bool :=
  let n := code c in
  ((9 <=? n) && (n <=? 13)) || ((28 <=? n) && (n <=? 32))
  || (n =? 133) || (n =? 160).

(** [str.isalnum] on one character of the Latin-1 range. *)
Definition is_alnum (c : ascii) : bool :=
  let n := code c in
  ((48 <=? n) && (n <=? 57)) || ((65 <=? n) && (n <=? 90))
  || ((97 <=? n) && (n <=? 122))
  || (n =? 170) || (n =? 178) || (n =? 179) || (n =? 181) || (n =? 185)
  || (n =? 186) || ((188 <=? n) && (n <=? 190))
  || ((192 <=? n) && (n <=? 214)) || ((216 <=? n) && (n <=? 246))
  || ((248 <=? n) && (n <=? 255)).

(** The regex class [\w]: alphanumeric or underscore. *)
Definition is_word (c : ascii) : bool := is_alnum c || (code c =? 95).

(** The regex class [[\w$]]. *)
Definition is_word_or_dollar (c : ascii) : bool := is_word c || (code c =? 36).

Definition semicolon : ascii := ";"%char.
Definition LF : ascii := ascii_of_nat 10.
Definition CR : ascii := ascii_of_nat 13.

Definition is_semicolon (c : ascii) : bool := Ascii.eqb c semicolon.

(** Case folding of [re.IGNORECASE]: on the Latin-1 range an ASCII letter of
    a pattern matches exactly its two cases. *)
Definition lower (c : ascii) : ascii :=
  let n := code c in
  if (65 <=? n) && (n <=? 90) then ascii_of_nat (n + 32) else c.

Definition ci_eqb (k c : ascii) : bool := Ascii.eqb (lower k) (lower c).

(** [len(s)] as a Python integer. *)
Definition len (s : str) : Z := Z.of_nat (length s).

(** The truth value of a string: [if s:] holds for a non-empty string. *)
Definition truthy (s : str) : bool :=
  match s with [] => false | _ :: _ => true end.

(** [s == ""]. *)
Definition is_empty (s : str) : bool := negb (truthy s).

(** Longest prefix of characters of a class, and what follows it. *)
Fixpoint skip_while (p : ascii -> bool) (s : str) : str :=
  match s with
  | [] => []
  | c :: s' => if p c then skip_while p s' else s
  end.

Fixpoint take_while (p : ascii -> bool) (s : str) : str :=
  match s with
  | [] => []
  | c :: s' => if p c then c :: take_while p s' else []
  end.

(** [str.lstrip()], [str.rstrip()], [str.strip()]. *)
Definition lstrip (s : str) : str := skip_while is_space s.
Definition rstrip (s : str) : str := rev (skip_while is_space (rev s)).
Definition strip (s : str) : str := rstrip (lstrip s).

(** [s.startswith(old)]. *)
Fixpoint starts_with (old s : str) : bool :=
  match old, s with
  | [], _ => true
  | _ :: _, [] => false
  | o :: old', c :: s' => Ascii.eqb o c && starts_with old' s'
  end.

(** [s.replace(old, new)] for a non-empty [old]: a left-to-right scan that
    replaces each occurrence and resumes after it.  [skip] counts the
    characters of the occurrence just replaced that are still to be passed
    over. *)
Fixpoint replace_from (old new : str) (skip : nat) (s : str) : str :=
  match s with
  | [] => []
  | c :: s' =>
      match skip with
      | S k => replace_from old new k s'
      | O =>
          if starts_with old s
          then new ++ replace_from old new (length old - 1) s'
          else c :: replace_from old new 0 s'
      end
  end.

Definition replace (old new s : str) : str := replace_from old new 0 s.

(** [s.split(sep)] for a one-character separator: the fragments between
    the separators, the separators dropped; never an empty list. *)
Fixpoint split (sep : ascii) (s : str) : list str :=
  match s with
  | [] => [[]]
  | c :: s' =>
      if Ascii.eqb c sep then [] :: split sep s'
      else match split sep s' with
           | f :: fs => (c :: f) :: fs
           | [] => [[c]]
           end
  end.

(** ["\n".join(l)]. *)
Fixpoint join_lf (l : list str) : str :=
  match l with
  | [] => []
  | [s] => s
  | s :: l' => s ++ LF :: join_lf l'
  end.

(** The characters of a string that are not whitespace, in order. *)
Definition nows (s : str) : str := filter (fun c => negb (is_space c)) s.

Definition all_space (s : str) : Prop := Forall (fun c => is_space c = true) s.

(** A text of whitespace only; the empty text is one. *)
Definition is_blank (s : str) : bool := forallb is_space s.

End Str.

Import Str.

(** ** The two patterns of the segmenter *)

Module Pattern.

(** A case-insensitive keyword at the start of [s]: what follows it. *)
Fixpoint after_keyword (kw s : str) : option str :=
  match kw, s with
  | [], _ => Some s
  | _ :: _, [] => None
  | k :: kw', c :: s' => if ci_eqb k c then after_keyword kw' s' else None
  end.

Definition has_keyword (kw s : str) : bool :=
  match after_keyword kw s with Some _ => true | None => false end.

(** [block_start_pattern.match(s)], the pattern being
    [^\s*(CREATE|DECLARE|BEGIN)] with IGNORECASE: [match] tries the start of
    the string only; the whitespace run is skipped whole, since no keyword
    starts with a whitespace character. *)
Definition block_start_match (s : str) : bool :=
  let r := skip_while is_space s in
  has_keyword (lit "CREATE") r || has_keyword (lit "DECLARE") r
  || has_keyword (lit "BEGIN") r.

Definition starts_semicolon (s : str) : bool :=
  match s with
  | c :: _ => is_semicolon c
  | [] => false
  end.

(** First alternative of [block_end_pattern], [END\s*;], tried at the start
    of [s]. *)
Definition end_bare_at (s : str) : bool :=
  match after_keyword (lit "END") s with
  | Some r => starts_semicolon (skip_while is_space r)
  | None => false
  end.

(** Second alternative, [END\s*[\w$]*\s*;], tried at the start of [s].  The
    three starred classes and the semicolon exclude one another, so taking
    each run whole loses no match. *)
Definition end_named_at (s : str) : bool :=
  match after_keyword (lit "END") s with
  | Some r =>
      starts_semicolon
        (skip_while is_space
           (skip_while is_word_or_dollar (skip_while is_space r)))
  | None => false
  end.

Definition end_at (s : str) : bool := end_bare_at s || end_named_at s.

(** [block_end_pattern.search(s)]: the pattern tried at every position. *)
Fixpoint block_end_search (s : str) : bool :=
  end_at s ||
  match s with
  | [] => false
  | _ :: s' => block_end_search s'
  end.

(** What the closing pattern means, stated on the text: somewhere in [s]
    stand the three letters E, N, D in either case, a run of whitespace, a
    run of word characters or dollars, a run of whitespace and a
    semicolon. *)
Definition is_END (k : str) : Prop :=
  exists e n d, k = [e; n; d]
    /\ ci_eqb "E"%char e = true /\ ci_eqb "N"%char n = true
    /\ ci_eqb "D"%char d = true.

Definition end_pattern_at (s : str) : Prop :=
  exists k ws1 tok ws2 rest,
    s = k ++ ws1 ++ tok ++ ws2 ++ semicolon :: rest
    /\ is_END k /\ all_space ws1
    /\ Forall (fun c => is_word_or_dollar c = true) tok
    /\ all_space ws2.

Definition contains_end_pattern (s : str) : Prop :=
  exists pre suf, s = pre ++ suf /\ end_pattern_at suf.

(** The statement begins, case-insensitively, with the keyword. *)
Definition begins_with (kw s : str) : Prop :=
  exists k rest, s = k ++ rest /\ Forall2 (fun a b => ci_eqb a b = true) kw k.

End Pattern.

Import Pattern.

(** ** The chunker *)

Module Chunker.

(** The accumulator of the segmentation pass, together with the list of
    blocks finalized so far ([blocks], [buffer] and [in_block] of the
    source). *)
Record acc : Type := mk_acc {
  blocks : list str;
  buffer : str;
  in_block : bool
}.

Definition init : acc := mk_acc [] [] false.

(** Start of a block: a statement whose stripped text matches the opening
    pattern flushes a non-empty buffer and raises the flag. *)
Definition open_step (a : acc) (stmt : str) : acc :=
  if block_start_match (strip stmt) then
    if truthy (buffer a)
    then mk_acc (blocks a ++ [strip (buffer a)]) [] true
    else mk_acc (blocks a) (buffer a) true
  else a.

(** [buffer += (stmt if buffer == "" else "\n" + stmt)]. *)
Definition append_buffer (buffer stmt : str) : str :=
  buffer ++ (if is_empty buffer then stmt else LF :: stmt).

Definition append_step (a : acc) (stmt : str) : acc :=
  mk_acc (blocks a) (append_buffer (buffer a) stmt) (in_block a).

(** The test of the closing branch. *)
Definition closes (a : acc) (stmt : str) : bool :=
  in_block a && block_end_search (strip stmt).

(** End of a block: inside a block, a statement whose stripped text
    contains the closing pattern finalizes the buffer and lowers the flag. *)
Definition close_step (a : acc) (stmt : str) : acc :=
  if closes a stmt
  then mk_acc (blocks a ++ [strip (buffer a)]) [] false
  else a.

(** One turn of the loop over the statements. *)
Definition step (a : acc) (stmt : str) : acc :=
  close_step (append_step (open_step a stmt) stmt) stmt.

Definition segment_loop (a : acc) (statements : list str) : acc :=
  fold_left step statements a.

(** After the loop: a buffer that is not blank becomes the last block. *)
Definition finish (a : acc) : list str :=
  if truthy (strip (buffer a)) then blocks a ++ [strip (buffer a)]
  else blocks a.

(** The segmentation pass on the statements of the splitter. *)
Definition segment_stmts (statements : list str) : list str :=
  finish (segment_loop init statements).

(** Line endings: CR LF, then a lone CR, become LF. *)
Definition normalize (plsql : str) : str :=
  replace [CR] [LF] (replace [CR; LF] [LF] plsql).

(** The buffer after a run of statements has been appended to it, and the
    buffer built from a run of statements, starting empty. *)
Definition extend (buffer : str) (statements : list str) : str :=
  fold_left append_buffer statements buffer.

Definition buffer_of (statements : list str) : str := extend [] statements.

(** The fallback pass.  The state of the loop over the fragments of one
    over-sized block is [final_blocks] and [temp]. *)
Definition fragment_step (max_chunk_size : Z) (st : list str * str)
    (s : str) : list str * str :=
  let temp := snd st ++ s ++ [semicolon] in
  if (len temp >=? max_chunk_size)%Z
  then (fst st ++ [strip temp], [])
  else (fst st, temp).

Definition fragment_finish (st : list str * str) : list str :=
  if truthy (strip (snd st)) then fst st ++ [strip (snd st)] else fst st.

(** The branch taken for a block longer than [max_chunk_size]. *)
Definition split_block (max_chunk_size : Z) (final_blocks : list str)
    (blk : str) : list str :=
  fragment_finish
    (fold_left (fragment_step max_chunk_size) (split semicolon blk)
               (final_blocks, [])).

Definition bound_step (max_chunk_size : Z) (final_blocks : list str)
    (blk : str) : list str :=
  if (len blk >? max_chunk_size)%Z
  then split_block max_chunk_size final_blocks blk
  else final_blocks ++ [blk].

(** The size bounder: the loop over [blocks] that fills [final_blocks]. *)
Definition bound (blocks : list str) (max_chunk_size : Z) : list str :=
  fold_left (bound_step max_chunk_size) blocks [].

(** The blocks that one input block contributes to the output. *)
Definition bound_block (max_chunk_size : Z) (blk : str) : list str :=
  bound_step max_chunk_size [] blk.

Section Splitter.

(** [sqlparse.split], the statement splitter of the library [sqlparse]. *)
Variable sqlparse_split : str -> list str.

Definition segment (plsql : str) : list str :=
  segment_stmts (sqlparse_split (normalize plsql)).

Definition split_plsql_into_blocks (plsql : str) (max_chunk_size : Z)
  : list str :=
  bound (segment plsql) max_chunk_size.

End Splitter.

(** A block of a block sequence: trimmed and not empty. *)
Definition is_block (b : str) : Prop := strip b = b /\ b <> [].

(** *** Notions used to state the properties of the segmenter *)

(** The statement finalizes the accumulating block as closed: the turn of
    the loop ends in the closing branch, which appends the trimmed buffer
    to the blocks, empties the buffer and lowers the flag. *)
Definition finalizes_closed (a : acc) (stmt : str) : Prop :=
  let a' := append_step (open_step a stmt) stmt in
  step a stmt = mk_acc (blocks a' ++ [strip (buffer a')]) [] false.

(** The splitter keeps the content of [code]: the characters of its
    statements that are not whitespace are those of [code], in order. *)
Definition preserves_content (splitter : str -> list str) (code : str)
  : Prop :=
  nows (concat (splitter code)) = nows code.

(** A statement that is empty or has a character that is not whitespace,
    as every trimmed statement is. *)
Definition never_blank (s : str) : bool := is_empty s || truthy (strip s).



(** The blocks are the trimmed buffers of consecutive runs of statements
    that make up the statement sequence, in order; a last run whose buffer
    is blank gives no block. *)
Definition partitions (statements : list str) (blocks : list str) : Prop :=
  exists (groups : list (list str)) (tail : list str),
    statements = concat groups ++ tail
    /\ blocks = map (fun g => strip (buffer_of g)) groups
    /\ strip (buffer_of tail) = [].

(** A statement splitter that cuts at line feeds, used to run the chunker
    on sample texts. *)
Definition line_splitter (code : str) : list str := split LF code.

(** The content held by an accumulator: the characters, whitespace left
    out, of the finalized blocks and of the buffer. *)
Definition content (a : acc) : str :=
  nows (concat (blocks a)) ++ nows (buffer a).

(** The accumulator [a] accounts for the statements [done]: its blocks are
    the trimmed buffers of consecutive runs and its buffer is built from
    the run that follows them. *)
Definition tracks (done : list str) (a : acc) : Prop :=
  exists (groups : list (list str)) (cur : list str),
    done = concat groups ++ cur
    /\ blocks a = map (fun g => strip (buffer_of g)) groups
    /\ buffer a = buffer_of cur.

(** No finalized block is blank, and the buffer is empty or not blank. *)
Definition well_filled (a : acc) : Prop :=
  Forall (fun b => strip b <> []) (blocks a)
  /\ (buffer a = [] \/ strip (buffer a) <> []).

(** *** Notions used to state the properties of the size bounder *)

(** A run of fragments as the loop accumulates it: every fragment followed
    by the semicolon that is re-appended. *)
Definition glue (fs : list str) : str :=
  concat (map (fun s => s ++ [semicolon]) fs).

(** The blocks that the fragment loop and the test after it add to
    [final_blocks], from the value of [temp] and the fragments to come. *)
Fixpoint chunks (max_chunk_size : Z) (temp : str) (l : list str) : list str :=
  match l with
  | [] => if truthy (strip temp) then [strip temp] else []
  | s :: l' =>
      let temp' := temp ++ s ++ [semicolon] in
      if (len temp' >=? max_chunk_size)%Z
      then strip temp' :: chunks max_chunk_size [] l'
      else chunks max_chunk_size temp' l'
  end.

(** [B] is the trimmed run of the consecutive fragments [r ++ [x]] of
    [frags], and the run without its last fragment is empty or shorter than
    the bound. *)
Definition chunk_of (max_chunk_size : Z) (frags : list str) (B : str) : Prop :=
  exists p r x q,
    frags = p ++ r ++ x :: q
    /\ B = strip (glue (r ++ [x]))
    /\ (r = [] \/ (len (glue r) < max_chunk_size)%Z).

(** [B] is one fragment of a block of [blocks], longer than the bound, as it
    stands or trimmed with its semicolon. *)
Definition single_fragment (max_chunk_size : Z) (blocks : list str)
    (B : str) : Prop :=
  exists blk f,
    In blk blocks /\ In f (split semicolon blk)
    /\ (len f > max_chunk_size)%Z
    /\ (B = f \/ B = strip (f ++ [semicolon])).

(** Number of semicolons of a text, and of a list of blocks. *)
Definition semis (s : str) : nat := length (filter is_semicolon s).
Definition total_semis (l : list str) : nat := semis (concat l).

Definition no_semicolon (s : str) : bool :=
  forallb (fun c => negb (is_semicolon c)) s.

(** *** Notions used to state further properties of the chunker *)

(** The statement is an opener. *)
Definition is_opener (t : str) : bool := block_start_match (strip t).

(** A trimmed text. *)
Definition trimmed (b : str) : Prop := strip b = b.

(** The text of an input block that the bounder hands on: the block, with
    one more semicolon when it is longer than the bound. *)
Definition carried (max_chunk_size : Z) (blk : str) : str :=
  if (len blk >? max_chunk_size)%Z then blk ++ [semicolon] else blk.

(** In the run [g] only empty statements stand before an opener. *)
Definition opener_leads (g : list str) : Prop :=
  forall pre o post,
    g = pre ++ o :: post -> is_opener o = true ->
    Forall (fun t => t = []) pre.

(** [tracks] with what the runs look like: no run of a block is empty, and
    an opener stands at the start of its run. *)
Definition tracks_openers (done : list str) (a : acc) : Prop :=
  exists (groups : list (list str)) (cur : list str),
    done = concat groups ++ cur
    /\ blocks a = map (fun g => strip (buffer_of g)) groups
    /\ buffer a = buffer_of cur
    /\ Forall (fun g => g <> [] /\ opener_leads g) groups
    /\ opener_leads cur.

Definition partitions_at_openers (statements : list str)
    (blocks : list str) : Prop :=
  exists (groups : list (list str)) (tail : list str),
    statements = concat groups ++ tail
    /\ blocks = map (fun g => strip (buffer_of g)) groups
    /\ strip (buffer_of tail) = []
    /\ Forall (fun g => g <> [] /\ opener_leads g) groups.

(** The characters of [s], every [old] replaced by [new]. *)
Definition map_char (old new : ascii) (s : str) : str :=
  map (fun c => if Ascii.eqb c old then new else c) s.

End Chunker.

Import Chunker.

(** ** The application around the chunker

    The parts of [streamlit_plsql_to_pyspark_Version7.py] that compute:
    the loading of the credentials, the choice of the provider, and the
    body of the script that keeps one conversion per block in the
    session.  What the script draws on the page is left out; what the page
    and the model answer (buttons pressed, converted text) comes in as
    parameters. *)

Module Ui.

Definition key : Type := String.string.
Bind Scope string_scope with key.

(** What a Python expression does: it returns a value or raises. *)
Inductive exn : Type :=
| KeyError (k : key)
| IndexError.
Arguments KeyError k%_string_scope.

Inductive outcome (A : Type) : Type :=
| Returned (a : A)
| Raised (e : exn).

Arguments Returned {A} a.
Arguments Raised {A} e.

Definition bind {A B : Type} (m : outcome A) (f : A -> outcome B)
  : outcome B :=
  match m with
  | Returned a => f a
  | Raised e => Raised e
  end.

Notation "x <- m ;; f" := (bind m (fun x => f))
  (at level 61, m at next level, right associativity).

(** The truth value of a value that is [None] or a string. *)
Definition truthy_value (v : option str) : bool :=
  match v with
  | Some s => truthy s
  | None => false
  end.

(** [x or y]. *)
Definition py_or (x y : option str) : option str :=
  if truthy_value x then x else y.

(** A dict with string keys, in insertion order; its values are [None] or
    strings. *)
Definition dict : Type := list (key * option str).

(** One entry of a dict. *)
Definition entry (k : key) (v : option str) : key * option str := (k, v).
Arguments entry k%_string_scope v.

Fixpoint dict_get (d : dict) (k : key) : option (option str) :=
  match d with
  | [] => None
  | (k', v) :: d' => if String.eqb k' k then Some v else dict_get d' k
  end.
Arguments dict_get d k%_string_scope.

(** [d[k] = v]. *)
Fixpoint dict_set (d : dict) (k : key) (v : option str) : dict :=
  match d with
  | [] => [(k, v)]
  | (k', v') :: d' =>
      if String.eqb k' k then (k', v) :: d' else (k', v') :: dict_set d' k v
  end.
Arguments dict_set d k%_string_scope v.

(** [d.get(k)]: [None] for a key that is not there. *)
Definition get (d : dict) (k : key) : option str :=
  match dict_get d k with
  | Some v => v
  | None => None
  end.
Arguments get d k%_string_scope.

(** [d[k]]: raises for a key that is not there. *)
Definition subscript (d : dict) (k : key) : outcome (option str) :=
  match dict_get d k with
  | Some v => Returned v
  | None => Raised (KeyError k)
  end.
Arguments subscript d k%_string_scope.

(** [os.getenv(k, default)] on the environment [environ]. *)
Definition getenv (environ : key -> option str) (k : key)
    (default : option str) : option str :=
  match environ k with
  | Some v => Some v
  | None => default
  end.
Arguments getenv environ k%_string_scope default.

Definition load_env_from_session (session_state : dict)
    (environ : key -> option str) : dict :=
  let env := [] in
  let env := dict_set env "GEMINI_API_KEY"
    (py_or (get session_state "gemini_api_key")
           (getenv environ "GEMINI_API_KEY" None)) in
  let env := dict_set env "OPENAI_API_KEY"
    (py_or (get session_state "openai_api_key")
           (getenv environ "OPENAI_API_KEY" None)) in
  let env := dict_set env "OPENAI_API_BASE"
    (py_or (get session_state "openai_api_base")
           (getenv environ "OPENAI_API_BASE" None)) in
  let env := dict_set env "OPENAI_API_TYPE"
    (py_or (get session_state "openai_api_type")
           (getenv environ "OPENAI_API_TYPE" (Some (lit "azure")))) in
  let env := dict_set env "OPENAI_API_VERSION"
    (py_or (get session_state "openai_api_version")
           (getenv environ "OPENAI_API_VERSION" None)) in
  let env := dict_set env "DEPLOYMENT_NAME"
    (py_or (get session_state "deployment_name")
           (getenv environ "DEPLOYMENT_NAME" None)) in
  let env := dict_set env "MODEL_NAME"
    (py_or (get session_state "model_name")
           (getenv environ "MODEL_NAME" (Some (lit "gpt-4o")))) in
  env.

(** The settings read by [load_env_from_session]: the key of the session,
    the name of the environment variable, which is also the key of the
    result, and the default of [os.getenv]. *)
Definition setting (session_key name : key) (default : option str)
  : key * key * option str :=
  (session_key, name, default).
Arguments setting session_key%_string_scope name%_string_scope default.

Definition credentials : list (key * key * option str) :=
  [ setting "gemini_api_key" "GEMINI_API_KEY" None;
    setting "openai_api_key" "OPENAI_API_KEY" None;
    setting "openai_api_base" "OPENAI_API_BASE" None;
    setting "openai_api_type" "OPENAI_API_TYPE" (Some (lit "azure"));
    setting "openai_api_version" "OPENAI_API_VERSION" None;
    setting "deployment_name" "DEPLOYMENT_NAME" None;
    setting "model_name" "MODEL_NAME" (Some (lit "gpt-4o")) ].

(** A provider, as the arguments its constructor was given.  What the
    constructors do to the client libraries is left out. *)
Inductive LLMProvider : Type :=
| GeminiProvider (api_key : option str)
| OpenAIProvider (api_key api_base api_type api_version deployment_name
                  : option str).

Definition str_eqb (a b : str) : bool :=
  if list_eq_dec ascii_dec a b then true else false.

Definition get_llm_provider (choice : str) (env : dict)
  : outcome (option LLMProvider) :=
  is_gemini <-
    (if str_eqb choice (lit "Gemini")
     then (v <- subscript env "GEMINI_API_KEY" ;; Returned (truthy_value v))
     else Returned false) ;;
  if is_gemini : bool then
    k <- subscript env "GEMINI_API_KEY" ;;
    Returned (Some (GeminiProvider k))
  else
    is_azure <-
      (if str_eqb choice (lit "Azure OpenAI")
       then (v <- subscript env "OPENAI_API_KEY" ;;
             Returned (truthy_value v))
       else Returned false) ;;
    if is_azure : bool then
      k <- subscript env "OPENAI_API_KEY" ;;
      b <- subscript env "OPENAI_API_BASE" ;;
      t <- subscript env "OPENAI_API_TYPE" ;;
      v <- subscript env "OPENAI_API_VERSION" ;;
      d <- subscript env "DEPLOYMENT_NAME" ;;
      Returned (Some (OpenAIProvider k b t v d))
    else Returned None.

(** [sep.join(l)]. *)
Fixpoint join (sep : str) (l : list str) : str :=
  match l with
  | [] => []
  | [s] => s
  | s :: l' => s ++ sep ++ join sep l'
  end.

(** [[cb for cb in converted_blocks if cb]]. *)
Definition all_converted (converted_blocks : list (option str)) : list str :=
  flat_map (fun cb => match cb with
                      | Some s => if truthy s then [s] else []
                      | None => []
                      end) converted_blocks.

(** [l[i] = v] and [l[i]] for an index that is not negative. *)
Definition list_assign {A : Type} (l : list A) (i : nat) (v : A)
  : outcome (list A) :=
  if i <? length l then Returned (firstn i l ++ v :: skipn (S i) l)
  else Raised IndexError.

Definition list_item {A : Type} (l : list A) (i : nat) : outcome A :=
  match nth_error l i with
  | Some x => Returned x
  | None => Raised IndexError
  end.

(** The two entries of the session that the script keeps for the
    conversions; [None] stands for an entry that is not there. *)
Record conversions : Type := mk_conversions {
  converted_blocks : option (list (option str));
  sql_snapshot : option str
}.

(** The conversions are dropped when there are none or when the text is
    not the one they were made for. *)
Definition refresh (blocks : list str) (sql_code : str) (s : conversions)
  : conversions :=
  if match converted_blocks s with None => true | Some _ => false end
     || negb match sql_snapshot s with
             | Some t => str_eqb t sql_code
             | None => false
             end
  then mk_conversions (Some (repeat None (length blocks))) (Some sql_code)
  else s.

(** The session holds conversions only together with the text they were
    made for, one entry per block of that text. *)
Definition consistent (blocks_of : str -> list str) (s : conversions)
  : Prop :=
  match converted_blocks s with
  | None => True
  | Some cbs =>
      exists t, sql_snapshot s = Some t
                /\ length cbs = length (blocks_of t)
  end.

Section Script.

(** The splitter of [sqlparse], the separator put between the converted
    blocks (a text with box-drawing characters, of which nothing depends),
    the buttons that are pressed in this run, and the text the provider
    returns for the block at a position. *)
Variable sqlparse_split : str -> list str.
Variable separator : str.
Variable pressed : nat -> bool.
Variable convert : LLMProvider -> nat -> str -> str.

Definition final_output (converted_blocks : list (option str)) : str :=
  if match all_converted converted_blocks with [] => false | _ => true end
  then join separator (all_converted converted_blocks)
  else [].

(** The loop over [enumerate(blocks)], from position [i] on. *)
Fixpoint convert_loop (provider : LLMProvider) (i : nat) (blocks : list str)
    (converted_blocks : list (option str))
  : outcome (list (option str)) :=
  match blocks with
  | [] => Returned converted_blocks
  | block :: rest =>
      cbs <- (if pressed i
              then list_assign converted_blocks i
                               (Some (convert provider i block))
              else Returned converted_blocks) ;;
      _ <- list_item cbs i ;;
      convert_loop provider (S i) rest cbs
  end.

Definition blocks_of (sql_code : str) : list str :=
  split_plsql_into_blocks sqlparse_split sql_code 1200.

(** The body of the script from [if sql_code:] to the merged output: the
    session after the run and the merged text, if the run got that far. *)
Definition script (llm_choice : str) (env : dict) (sql_code : str)
    (s : conversions) : outcome (conversions * option str) :=
  if truthy sql_code then
    let blocks := blocks_of sql_code in
    provider <- get_llm_provider llm_choice env ;;
    match provider with
    | None => Returned (s, None)
    | Some p =>
        let s1 := refresh blocks sql_code s in
        cbs <- match converted_blocks s1 with
               | Some cbs => Returned cbs
               | None => Raised (KeyError "converted_blocks")
               end ;;
        cbs' <- convert_loop p 0 blocks cbs ;;
        Returned (mk_conversions (Some cbs') (sql_snapshot s1),
                  Some (final_output cbs'))
    end
  else Returned (s, None).

End Script.

End Ui.

Import Ui.

(** ** Sample runs *)

Example ex_strip : strip (lit "  a b  ") = lit "a b".
Proof. reflexivity. Qed.

Example ex_normalize :
  normalize [ "a"%char; CR; LF; "b"%char; CR; "c"%char; LF ]
  = [ "a"%char; LF; "b"%char; LF; "c"%char; LF ].
Proof. reflexivity. Qed.

Example ex_split : split semicolon (lit "a;b;") = [lit "a"; lit "b"; lit ""].
Proof. reflexivity. Qed.

Example ex_start : block_start_match (lit "create or replace") = true.
Proof. reflexivity. Qed.

Example ex_end : block_end_search (lit "x end loop ;") = true.
Proof. reflexivity. Qed.

Example ex_no_end : block_end_search (lit "END IF") = false.
Proof. reflexivity. Qed.

Example ex_standalone :
  segment line_splitter (lit "UPDATE t SET x=1;") = [lit "UPDATE t SET x=1;"].
Proof. reflexivity. Qed.

Example ex_two_creates :
  segment line_splitter
    (lit "CREATE PROCEDURE p IS BEGIN NULL; END;
CREATE PROCEDURE q IS BEGIN NULL; END q;")
  = [lit "CREATE PROCEDURE p IS BEGIN NULL; END;";
     lit "CREATE PROCEDURE q IS BEGIN NULL; END q;"].
Proof. reflexivity. Qed.

Example ex_bound_once :
  bound [lit "ab;cdef;"] 5 = [lit "ab;cdef;"; lit ";"].
Proof. reflexivity. Qed.

Example ex_bound_twice :
  bound (bound [lit "ab;cdef;"] 5) 5 = [lit "ab;cdef;"; lit ";"; lit ";"].
Proof. reflexivity. Qed.

Example ex_bound_exact :
  bound [lit "ab; c"] 3 = [lit "ab;"; lit "c;"].
Proof. reflexivity. Qed.

(** ** Characters and runs of characters *)

Section Runs.

Lemma semicolon_not_space : is_space semicolon = false.
Proof. reflexivity. Qed.

Lemma semicolon_not_word : is_word_or_dollar semicolon = false.
Proof. reflexivity. Qed.

Lemma space_not_word (c : ascii) :
  is_space c = true -> is_word_or_dollar c = false.
Proof.
  destruct c as [[] [] [] [] [] [] [] []]; vm_compute; congruence.
Qed.

Lemma is_semicolon_spec (c : ascii) : is_semicolon c = true <-> c = semicolon.
Proof. unfold is_semicolon. apply Ascii.eqb_eq. Qed.

Lemma is_semicolon_not_space (c : ascii) :
  is_semicolon c = true -> is_space c = false.
Proof. intros H. apply is_semicolon_spec in H. now subst. Qed.

Variable p : ascii -> bool.

Lemma take_skip (s : str) : take_while p s ++ skip_while p s = s.
Proof.
  induction s as [|c s IH]; simpl; [reflexivity|].
  destruct (p c); simpl; [now rewrite IH | reflexivity].
Qed.

Lemma take_while_all (s : str) : Forall (fun c => p c = true) (take_while p s).
Proof.
  induction s as [|c s IH]; simpl; [constructor|].
  destruct (p c) eqn:E; constructor; assumption.
Qed.

Lemma skip_while_app_all (a b : str) :
  Forall (fun c => p c = true) a -> skip_while p (a ++ b) = skip_while p b.
Proof.
  induction 1 as [|c a Hc _ IH]; simpl; [reflexivity|].
  now rewrite Hc.
Qed.

Lemma skip_while_stop (c : ascii) (s : str) :
  p c = false -> skip_while p (c :: s) = c :: s.
Proof. intros H; simpl; now rewrite H. Qed.

Lemma skip_while_all (a : str) :
  Forall (fun c => p c = true) a -> skip_while p a = [].
Proof.
  intros H. rewrite <- (app_nil_r a). now rewrite skip_while_app_all.
Qed.

Lemma skip_while_nil_all (a : str) :
  skip_while p a = [] -> Forall (fun c => p c = true) a.
Proof.
  induction a as [|c a IH]; simpl; [constructor|].
  destruct (p c) eqn:E; [|discriminate].
  intros H; constructor; auto.
Qed.

Lemma skip_while_head (s : str) :
  match skip_while p s with
  | [] => True
  | c :: _ => p c = false
  end.
Proof.
  induction s as [|c s IH]; simpl; [exact I|].
  destruct (p c) eqn:E; [exact IH | exact E].
Qed.

Lemma skip_while_idem (s : str) :
  skip_while p (skip_while p s) = skip_while p s.
Proof.
  pose proof (skip_while_head s) as H.
  destruct (skip_while p s) as [|c r]; [reflexivity|].
  now apply skip_while_stop.
Qed.

Lemma skip_while_app_stop (a b : str) :
  skip_while p a <> [] -> skip_while p (a ++ b) = skip_while p a ++ b.
Proof.
  induction a as [|c a IH]; simpl; [congruence|].
  destruct (p c); [exact IH | reflexivity].
Qed.

Lemma skip_while_length (s : str) : length (skip_while p s) <= length s.
Proof.
  induction s as [|c s IH]; simpl; [lia|].
  destruct (p c); simpl; lia.
Qed.

End Runs.

(** ** Stripping *)

Lemma all_space_app (a b : str) :
  all_space (a ++ b) <-> all_space a /\ all_space b.
Proof. unfold all_space. apply Forall_app. Qed.

Lemma all_space_rev (a : str) : all_space a -> all_space (rev a).
Proof. unfold all_space. apply Forall_rev. Qed.

Lemma lstrip_nil_iff (s : str) : lstrip s = [] <-> all_space s.
Proof.
  split; [apply skip_while_nil_all | apply skip_while_all].
Qed.

Lemma rstrip_nil_iff (s : str) : rstrip s = [] <-> all_space s.
Proof.
  unfold rstrip. split; intros H.
  - apply (f_equal (@rev ascii)) in H. rewrite rev_involutive in H. simpl in H.
    apply skip_while_nil_all in H. apply all_space_rev in H.
    now rewrite rev_involutive in H.
  - rewrite (skip_while_all is_space (rev s)); [reflexivity|].
    now apply all_space_rev.
Qed.

Lemma lstrip_suffix (s : str) : exists w, all_space w /\ s = w ++ lstrip s.
Proof.
  exists (take_while is_space s). split.
  - apply take_while_all.
  - symmetry. apply take_skip.
Qed.

Lemma rstrip_prefix (s : str) : exists w, all_space w /\ s = rstrip s ++ w.
Proof.
  destruct (lstrip_suffix (rev s)) as (w & Hw & E).
  exists (rev w). split; [now apply all_space_rev|].
  unfold rstrip. unfold lstrip in E.
  rewrite <- rev_app_distr, <- E. now rewrite rev_involutive.
Qed.

Lemma all_space_lstrip (s : str) : all_space s -> all_space (lstrip s).
Proof. intros H. apply lstrip_nil_iff in H. rewrite H. constructor. Qed.

Lemma strip_nil_iff (s : str) : strip s = [] <-> all_space s.
Proof.
  unfold strip. rewrite rstrip_nil_iff. split; intros H.
  - destruct (lstrip_suffix s) as (w & Hw & E). rewrite E.
    apply all_space_app. now split.
  - now apply all_space_lstrip.
Qed.

(** A string that ends with a character that is not whitespace is its own
    right strip. *)
Lemma rstrip_snoc (s : str) (c : ascii) :
  is_space c = false -> rstrip (s ++ [c]) = s ++ [c].
Proof.
  intros H. unfold rstrip. rewrite rev_app_distr. simpl.
  rewrite H. simpl. now rewrite rev_involutive.
Qed.

Lemma lstrip_snoc (s : str) (c : ascii) :
  is_space c = false -> lstrip (s ++ [c]) = lstrip s ++ [c].
Proof.
  intros H. unfold lstrip.
  destruct (skip_while is_space s) as [|d r] eqn:E.
  - apply skip_while_nil_all in E. rewrite skip_while_app_all by assumption.
    simpl. now rewrite H.
  - rewrite skip_while_app_stop by congruence. now rewrite E.
Qed.

Lemma strip_snoc (s : str) (c : ascii) :
  is_space c = false -> strip (s ++ [c]) = lstrip s ++ [c].
Proof.
  intros H. unfold strip. rewrite lstrip_snoc by assumption.
  now apply rstrip_snoc.
Qed.

Lemma lstrip_idem (s : str) : lstrip (lstrip s) = lstrip s.
Proof. apply skip_while_idem. Qed.

Lemma rstrip_idem (s : str) : rstrip (rstrip s) = rstrip s.
Proof.
  unfold rstrip. rewrite rev_involutive. now rewrite skip_while_idem.
Qed.

(** Stripping on the right keeps a first character that is not
    whitespace. *)
Lemma rstrip_cons (c : ascii) (s : str) :
  is_space c = false -> exists r, rstrip (c :: s) = c :: r.
Proof.
  intros H. unfold rstrip. simpl.
  destruct (skip_while is_space (rev s)) as [|d r] eqn:E.
  - apply skip_while_nil_all in E.
    rewrite skip_while_app_all by assumption. simpl. rewrite H.
    now exists [].
  - rewrite skip_while_app_stop by congruence. rewrite E.
    rewrite rev_app_distr. simpl. now eexists.
Qed.

Lemma lstrip_rstrip_comm_head (s : str) :
  lstrip (rstrip (lstrip s)) = rstrip (lstrip s).
Proof.
  pose proof (skip_while_head is_space s) as H. unfold lstrip at 2 3.
  destruct (skip_while is_space s) as [|c r]; [reflexivity|].
  destruct (rstrip_cons c r H) as (r' & E). rewrite E.
  now apply skip_while_stop.
Qed.

Lemma strip_idem (s : str) : strip (strip s) = strip s.
Proof.
  unfold strip. rewrite lstrip_rstrip_comm_head. apply rstrip_idem.
Qed.

Lemma strip_length (s : str) : length (strip s) <= length s.
Proof.
  unfold strip, rstrip, lstrip. rewrite length_rev.
  etransitivity; [apply skip_while_length|]. rewrite length_rev.
  apply skip_while_length.
Qed.

(** ** Text without its whitespace *)

Lemma nows_app (a b : str) : nows (a ++ b) = nows a ++ nows b.
Proof. apply filter_app. Qed.

Lemma nows_nil_iff (s : str) : nows s = [] <-> all_space s.
Proof.
  unfold nows, all_space. induction s as [|c s IH]; simpl.
  - split; [constructor | reflexivity].
  - destruct (is_space c) eqn:E; simpl.
    + rewrite IH. split; intros H; [now constructor | now inversion H].
    + split; [discriminate|]. intros H. inversion H. congruence.
Qed.

Lemma nows_lstrip (s : str) : nows (lstrip s) = nows s.
Proof.
  destruct (lstrip_suffix s) as (w & Hw & E). rewrite E at 2.
  rewrite nows_app. apply nows_nil_iff in Hw. now rewrite Hw.
Qed.

Lemma nows_rstrip (s : str) : nows (rstrip s) = nows s.
Proof.
  destruct (rstrip_prefix s) as (w & Hw & E). rewrite E at 2.
  rewrite nows_app. apply nows_nil_iff in Hw. rewrite Hw.
  now rewrite app_nil_r.
Qed.

Lemma nows_strip (s : str) : nows (strip s) = nows s.
Proof. unfold strip. now rewrite nows_rstrip, nows_lstrip. Qed.

(** ** The patterns *)

Lemma skip_while_run (p : ascii -> bool) (a : str) (c : ascii) (r : str) :
  Forall (fun x => p x = true) a -> p c = false ->
  skip_while p (a ++ c :: r) = c :: r.
Proof.
  intros Ha Hc. rewrite skip_while_app_all by assumption.
  now apply skip_while_stop.
Qed.

Lemma after_keyword_spec (kw : str) :
  forall s r,
    after_keyword kw s = Some r
    <-> exists k, s = k ++ r /\ Forall2 (fun a b => ci_eqb a b = true) kw k.
Proof.
  induction kw as [|a kw IH]; intros s r.
  - destruct s; simpl; split.
    + intros [= <-]. exists []. split; [reflexivity | constructor].
    + intros (k & E & Hk). inversion Hk; subst. simpl in E. now subst.
    + intros [= <-]. exists []. split; [reflexivity | constructor].
    + intros (k & E & Hk). inversion Hk; subst. simpl in E. now subst.
  - destruct s as [|c s]; simpl.
    + split; [discriminate|].
      intros (k & E & Hk). inversion Hk; subst. discriminate.
    + destruct (ci_eqb a c) eqn:Hc.
      * rewrite IH. split.
        -- intros (k & -> & Hk). exists (c :: k). split; [reflexivity|].
           now constructor.
        -- intros (k & E & Hk). inversion Hk; subst.
           injection E as <- ->. now eexists.
      * split; [discriminate|].
        intros (k & E & Hk). inversion Hk; subst.
        injection E as <- ->. congruence.
Qed.


Lemma is_END_spec (k : str) :
  is_END k <-> Forall2 (fun a b => ci_eqb a b = true) (lit "END") k.
Proof.
  split.
  - intros (e & n & d & -> & He & Hn & Hd). repeat constructor; assumption.
  - intros H. change (lit "END") with ["E"; "N"; "D"]%char in H.
    inversion H as [|? e ? k1 He H1]; subst.
    inversion H1 as [|? n ? k2 Hn H2]; subst.
    inversion H2 as [|? d ? k3 Hd H3]; subst.
    inversion H3; subst. now exists e, n, d.
Qed.

Lemma after_END_spec (s r : str) :
  after_keyword (lit "END") s = Some r
  <-> exists k, s = k ++ r /\ is_END k.
Proof.
  rewrite after_keyword_spec. split; intros (k & E & Hk); exists k;
    (split; [assumption|]); now apply is_END_spec.
Qed.

Lemma starts_semicolon_spec (s : str) :
  starts_semicolon s = true <-> exists rest, s = semicolon :: rest.
Proof.
  destruct s as [|c s]; simpl.
  - split; [discriminate | intros (? & [=])].
  - rewrite is_semicolon_spec. split.
    + intros ->. now eexists.
    + now intros (? & [= -> _]).
Qed.

Lemma word_not_space (c : ascii) :
  is_word_or_dollar c = true -> is_space c = false.
Proof.
  intros H. destruct (is_space c) eqn:E; [|reflexivity].
  apply space_not_word in E. congruence.
Qed.

(** The second alternative of the closing pattern, tried at the start of
    [s], matches exactly the texts described by [end_pattern_at]. *)
Lemma end_named_at_spec (s : str) :
  end_named_at s = true <-> end_pattern_at s.
Proof.
  unfold end_named_at, end_pattern_at. split.
  - destruct (after_keyword (lit "END") s) as [r|] eqn:E; [|discriminate].
    apply after_END_spec in E. destruct E as (k & -> & Hk).
    intros H. apply starts_semicolon_spec in H. destruct H as (rest & H).
    set (r1 := skip_while is_space r) in *.
    set (r2 := skip_while is_word_or_dollar r1) in *.
    exists k, (take_while is_space r), (take_while is_word_or_dollar r1),
      (take_while is_space r2), rest.
    repeat split; try apply take_while_all; try assumption.
    rewrite <- H, take_skip. fold r2. rewrite take_skip. fold r1.
    now rewrite take_skip.
  - intros (k & ws1 & tok & ws2 & rest & -> & Hk & H1 & Ht & H2).
    assert (E : after_keyword (lit "END")
                  (k ++ ws1 ++ tok ++ ws2 ++ semicolon :: rest)
                = Some (ws1 ++ tok ++ ws2 ++ semicolon :: rest))
      by (apply after_END_spec; now exists k).
    rewrite E. rewrite (skip_while_app_all is_space ws1) by assumption.
    destruct tok as [|t tok]; simpl app.
    + rewrite (skip_while_run is_space ws2) by auto using semicolon_not_space.
      rewrite skip_while_stop by apply semicolon_not_word.
      rewrite skip_while_stop by apply semicolon_not_space. reflexivity.
    + inversion Ht as [|? ? Ht1 Ht2]; subst.
      rewrite (skip_while_stop is_space) by now apply word_not_space.
      change (t :: tok ++ ws2 ++ semicolon :: rest)
        with ((t :: tok) ++ ws2 ++ semicolon :: rest).
      rewrite (skip_while_app_all is_word_or_dollar (t :: tok)) by assumption.
      destruct ws2 as [|w ws2]; simpl app.
      * rewrite skip_while_stop by apply semicolon_not_word.
        rewrite skip_while_stop by apply semicolon_not_space. reflexivity.
      * inversion H2 as [|? ? Hw1 Hw2]; subst.
        rewrite (skip_while_stop is_word_or_dollar)
          by now apply space_not_word.
        change (w :: ws2 ++ semicolon :: rest)
          with ((w :: ws2) ++ semicolon :: rest).
        rewrite (skip_while_run is_space (w :: ws2))
          by auto using semicolon_not_space.
        reflexivity.
Qed.

(** The first alternative matches nothing that the second does not. *)
Lemma end_bare_named (s : str) :
  end_bare_at s = true -> end_named_at s = true.
Proof.
  unfold end_bare_at, end_named_at.
  destruct (after_keyword (lit "END") s) as [r|]; [|discriminate].
  intros H. apply starts_semicolon_spec in H. destruct H as (rest & ->).
  rewrite skip_while_stop by apply semicolon_not_word.
  rewrite skip_while_stop by apply semicolon_not_space. reflexivity.
Qed.

Lemma end_at_spec (s : str) : end_at s = true <-> end_pattern_at s.
Proof.
  unfold end_at. rewrite <- end_named_at_spec, orb_true_iff.
  split; [|now right]. intros [H | H]; [now apply end_bare_named | exact H].
Qed.

(** The search for the closing pattern succeeds exactly on the texts that
    contain it. *)
Lemma block_end_search_spec (s : str) :
  block_end_search s = true <-> contains_end_pattern s.
Proof.
  unfold contains_end_pattern. induction s as [|c s IH].
  - split; [discriminate|].
    intros (pre & suf & E & H). symmetry in E.
    apply app_eq_nil in E. destruct E as [-> ->].
    apply end_at_spec in H. discriminate.
  - change (block_end_search (c :: s))
      with (end_at (c :: s) || block_end_search s).
    rewrite orb_true_iff, end_at_spec, IH. split.
    + intros [H | (pre & suf & -> & H)].
      * now exists [], (c :: s).
      * now exists (c :: pre), suf.
    + intros (pre & suf & E & H). destruct pre as [|c' pre].
      * left. simpl in E. now subst.
      * right. injection E as <- ->. now exists pre, suf.
Qed.



(** ** The size bounder *)

Lemma len_app (a b : str) : len (a ++ b) = (len a + len b)%Z.
Proof. unfold len. rewrite length_app. lia. Qed.

Lemma len_nonneg (a : str) : (0 <= len a)%Z.
Proof. unfold len. lia. Qed.

Lemma len_strip (s : str) : (len (strip s) <= len s)%Z.
Proof. unfold len. pose proof (strip_length s). lia. Qed.

Lemma glue_app (a b : list str) : glue (a ++ b) = glue a ++ glue b.
Proof. unfold glue. now rewrite map_app, concat_app. Qed.

Lemma glue_snoc (r : list str) (x : str) :
  glue (r ++ [x]) = glue r ++ x ++ [semicolon].
Proof. rewrite glue_app. unfold glue. simpl. now rewrite app_nil_r. Qed.

(** The loop over the fragments only appends to [final_blocks]. *)
Lemma fragment_loop_chunks (N : Z) (l : list str) :
  forall final_blocks temp,
    fragment_finish (fold_left (fragment_step N) l (final_blocks, temp))
    = final_blocks ++ chunks N temp l.
Proof.
  induction l as [|s l IH]; intros fb temp; simpl.
  - unfold fragment_finish. simpl.
    destruct (truthy (strip temp)); [reflexivity | now rewrite app_nil_r].
  - unfold fragment_step at 2. simpl.
    destruct (len (temp ++ s ++ [semicolon]) >=? N)%Z.
    + rewrite IH. now rewrite <- app_assoc.
    + apply IH.
Qed.

Lemma bound_block_eq (N : Z) (blk : str) :
  bound_block N blk
  = if (len blk >? N)%Z then chunks N [] (split semicolon blk) else [blk].
Proof.
  unfold bound_block, bound_step, split_block.
  destruct (len blk >? N)%Z; [|reflexivity].
  now rewrite fragment_loop_chunks.
Qed.

Lemma bound_step_app (N : Z) (final_blocks : list str) (blk : str) :
  bound_step N final_blocks blk = final_blocks ++ bound_block N blk.
Proof.
  unfold bound_block, bound_step, split_block.
  destruct (len blk >? N)%Z; [|reflexivity].
  now rewrite !fragment_loop_chunks.
Qed.

(** The bounder treats every block on its own. *)
Lemma bound_flat_map (N : Z) (blocks : list str) :
  bound blocks N = flat_map (bound_block N) blocks.
Proof.
  unfold bound.
  enough (H : forall fb, fold_left (bound_step N) blocks fb
                         = fb ++ flat_map (bound_block N) blocks)
    by apply (H []).
  induction blocks as [|b bs IH]; intros fb; simpl.
  - now rewrite app_nil_r.
  - rewrite IH, bound_step_app. now rewrite <- app_assoc.
Qed.

Lemma bound_app (N : Z) (a b : list str) :
  bound (a ++ b) N = bound a N ++ bound b N.
Proof. rewrite !bound_flat_map. apply flat_map_app. Qed.

Lemma in_bound (N : Z) (blocks : list str) (B : str) :
  In B (bound blocks N) <-> exists blk, In blk blocks /\ In B (bound_block N blk).
Proof. rewrite bound_flat_map. apply in_flat_map. Qed.

(** A block within the bound passes through. *)
Lemma bound_small (N : Z) (blocks : list str) :
  Forall (fun b => (len b <= N)%Z) blocks -> bound blocks N = blocks.
Proof.
  rewrite bound_flat_map.
  induction 1 as [|b bs Hb _ IH]; simpl; [reflexivity|].
  rewrite IH, bound_block_eq.
  destruct (Z.gtb_spec (len b) N); [lia | reflexivity].
Qed.

(** Every block of the splitting path is a trimmed text that ends with the
    re-appended semicolon. *)
Lemma chunks_shape (N : Z) (l : list str) :
  forall temp,
    (temp = [] \/ exists t, temp = t ++ [semicolon]) ->
    forall B, In B (chunks N temp l) -> exists t, B = strip (t ++ [semicolon]).
Proof.
  induction l as [|s l IH]; intros temp Ht B HB; simpl in HB.
  - destruct Ht as [-> | (t & ->)].
    + simpl in HB. contradiction.
    + destruct (truthy (strip (t ++ [semicolon]))); simpl in HB;
        [|contradiction].
      destruct HB as [<- | []]. now exists t.
  - destruct (len (temp ++ s ++ [semicolon]) >=? N)%Z.
    + destruct HB as [<- | HB].
      * exists (temp ++ s). now rewrite <- app_assoc.
      * apply (IH [] (or_introl eq_refl) B HB).
    + apply (IH (temp ++ s ++ [semicolon])); [|exact HB].
      right. exists (temp ++ s). now rewrite <- app_assoc.
Qed.

(** An emitted block longer than the bound was flushed inside the loop, and
    over-shoots by its last fragment only. *)
Lemma chunks_oversized (N : Z) (l : list str) :
  forall done run,
    (run = [] \/ (len (glue run) < N)%Z) ->
    forall B, In B (chunks N (glue run) l) -> (len B > N)%Z ->
    chunk_of N (done ++ run ++ l) B.
Proof.
  induction l as [|s l IH]; intros done run Hrun B HB Hlen; simpl in HB.
  - exfalso. destruct Hrun as [-> | Hrun]; [exact HB|].
    destruct (truthy (strip (glue run))); simpl in HB; [|contradiction].
    destruct HB as [<- | []].
    pose proof (len_strip (glue run)). lia.
  - rewrite <- glue_snoc in HB.
    destruct (len (glue (run ++ [s])) >=? N)%Z eqn:E.
    + destruct HB as [<- | HB].
      * exists done, run, s, l. repeat split; auto.
      * specialize (IH (done ++ run ++ [s]) [] (or_introl eq_refl) B HB Hlen).
        simpl in IH. now rewrite <- !app_assoc in IH.
    + specialize (IH done (run ++ [s])).
      rewrite <- app_assoc in IH. simpl in IH. apply IH; auto.
      right. rewrite Z.geb_leb in E. apply Z.leb_gt in E. exact E.
Qed.

(** The fragments of a text carry all of it: re-appending a semicolon to
    each gives the text and one semicolon more. *)
Lemma split_cons (sep : ascii) (s : str) :
  exists f fs, split sep s = f :: fs.
Proof.
  destruct s as [|c s]; simpl; [now eexists; eexists|].
  destruct (Ascii.eqb c sep); [now eexists; eexists|].
  destruct (split sep s); now eexists; eexists.
Qed.

Lemma glue_split (s : str) : glue (split semicolon s) = s ++ [semicolon].
Proof.
  induction s as [|c s IH]; [reflexivity|]. simpl.
  destruct (Ascii.eqb_spec c semicolon) as [-> | Hc].
  - unfold glue in *. simpl. now rewrite IH.
  - destruct (split_cons semicolon s) as (f & fs & E). rewrite E in *.
    unfold glue in *. simpl in *. now rewrite IH.
Qed.

Lemma split_no_sep (sep : ascii) (s : str) :
  forallb (fun c => negb (Ascii.eqb c sep)) s = true -> split sep s = [s].
Proof.
  induction s as [|c s IH]; simpl; [reflexivity|].
  intros H. apply andb_true_iff in H. destruct H as [Hc Hs].
  apply negb_true_iff in Hc. rewrite Hc, (IH Hs). reflexivity.
Qed.

(** *** Counting semicolons *)

Lemma semis_app (a b : str) : semis (a ++ b) = semis a + semis b.
Proof. unfold semis. now rewrite filter_app, length_app. Qed.

Lemma semis_all_space (w : str) : all_space w -> semis w = 0.
Proof.
  unfold semis. induction 1 as [|c w Hc _ IH]; simpl; [reflexivity|].
  destruct (is_semicolon c) eqn:E; [|exact IH].
  apply is_semicolon_not_space in E. congruence.
Qed.

Lemma semis_strip (s : str) : semis (strip s) = semis s.
Proof.
  unfold strip.
  destruct (lstrip_suffix s) as (w1 & Hw1 & E1).
  destruct (rstrip_prefix (lstrip s)) as (w2 & Hw2 & E2).
  rewrite E1 at 2. rewrite E2 at 2.
  rewrite !semis_app, (semis_all_space w1), (semis_all_space w2) by assumption.
  lia.
Qed.

Lemma total_semis_app (a b : list str) :
  total_semis (a ++ b) = total_semis a + total_semis b.
Proof. unfold total_semis. now rewrite concat_app, semis_app. Qed.

Lemma total_semis_cons (b : str) (l : list str) :
  total_semis (b :: l) = semis b + total_semis l.
Proof. unfold total_semis. simpl. apply semis_app. Qed.

Lemma glue_cons (s : str) (l : list str) :
  glue (s :: l) = (s ++ [semicolon]) ++ glue l.
Proof. reflexivity. Qed.

Lemma chunks_semis (N : Z) (l : list str) :
  forall temp, total_semis (chunks N temp l) = semis temp + semis (glue l).
Proof.
  induction l as [|s l IH]; intros temp.
  - change (glue []) with (@nil ascii). change (semis []) with 0.
    simpl. destruct (strip temp) as [|c r] eqn:E.
    + apply strip_nil_iff in E. rewrite (semis_all_space temp E).
      reflexivity.
    + simpl. rewrite total_semis_cons, <- E, semis_strip. reflexivity.
  - rewrite glue_cons. simpl.
    destruct (len (temp ++ s ++ [semicolon]) >=? N)%Z.
    + rewrite total_semis_cons, IH, semis_strip, !semis_app.
      change (semis []) with 0. lia.
    + rewrite IH, !semis_app. lia.
Qed.

(** Re-chunking an over-sized block adds one semicolon to its text. *)
Lemma bound_block_semis (N : Z) (blk : str) :
  total_semis (bound_block N blk)
  = semis blk + (if (len blk >? N)%Z then 1 else 0).
Proof.
  rewrite bound_block_eq. destruct (len blk >? N)%Z.
  - rewrite chunks_semis, glue_split, semis_app. reflexivity.
  - rewrite total_semis_cons. reflexivity.
Qed.

Lemma bound_semis (N : Z) (blocks : list str) :
  total_semis (bound blocks N)
  = total_semis blocks + length (filter (fun b => (len b >? N)%Z) blocks).
Proof.
  rewrite bound_flat_map.
  induction blocks as [|b bs IH]; simpl; [reflexivity|].
  rewrite total_semis_app, IH, bound_block_semis, total_semis_cons.
  destruct (len b >? N)%Z; simpl; lia.
Qed.

Lemma no_oversized (N : Z) (blocks : list str) :
  length (filter (fun b => (len b >? N)%Z) blocks) = 0 ->
  Forall (fun b => (len b <= N)%Z) blocks.
Proof.
  induction blocks as [|b bs IH]; simpl; [constructor|].
  destruct (Z.gtb_spec (len b) N) as [Hgt | Hle]; simpl; [discriminate|].
  intros H0. constructor; [lia | auto].
Qed.

(** ** Properties of the size bounder *)

(** C1, as stated, fails.  With the bound 5 the block [ab;cdef;] comes out
    of the bounder as a block of eight characters, more than the bound, but
    none of its fragments [ab], [cdef] and the empty one is longer than 5:
    the block was assembled from two fragments. *)
Lemma bound_oversized_not_single_fragment :
  exists B,
    In B (bound [lit "ab;cdef;"] 5) /\ (len B > 5)%Z
    /\ ~ single_fragment 5 [lit "ab;cdef;"] B.
Proof.
  exists (lit "ab;cdef;"). split; [left; reflexivity|].
  split; [reflexivity|].
  intros (blk & f & Hblk & Hf & Hlen & _).
  destruct Hblk as [<- | []]. vm_compute in Hf.
  destruct Hf as [<- | [<- | [<- | []]]]; vm_compute in Hlen; discriminate.
Qed.

(** C1, amended.  Every block of [bound blocks N] that is longer than [N]
    comes from a block of the input longer than [N]; it is the trimmed run
    of one or more consecutive fragments of that block, each followed by a
    semicolon, and the run without its last fragment is empty or shorter
    than [N]: the loop flushed as soon as the bound was reached. *)
Theorem bound_oversized_overshoots_by_last_fragment :
  forall (blocks : list str) (N : Z) (B : str),
    In B (bound blocks N) -> (len B > N)%Z ->
    exists blk,
      In blk blocks /\ (len blk > N)%Z
      /\ chunk_of N (split semicolon blk) B.
Proof.
  intros blocks N B HB Hlen.
  apply in_bound in HB. destruct HB as (blk & Hblk & HB).
  rewrite bound_block_eq in HB.
  destruct (Z.gtb_spec (len blk) N) as [Hgt | Hle].
  - exists blk. repeat split; [assumption | lia |].
    apply (chunks_oversized N (split semicolon blk) [] []
             (or_introl eq_refl) B HB Hlen).
  - destruct HB as [<- | []]. lia.
Qed.

Lemma bound_oversized_overshoots_witness :
  exists blk,
    In blk [lit "ab;cdef;"] /\ (len blk > 5)%Z
    /\ chunk_of 5 (split semicolon blk) (lit "ab;cdef;").
Proof.
  apply (bound_oversized_overshoots_by_last_fragment
           [lit "ab;cdef;"] 5 (lit "ab;cdef;")).
  - vm_compute. left. reflexivity.
  - reflexivity.
Defined.

(** C2, as stated, fails.  With the bound 5, bounding [ab;cdef;] gives
    [ab;cdef;] and [;]; bounding that again splits [ab;cdef;] once more and
    gives three blocks. *)
Lemma bound_not_idempotent :
  (5 >= 1)%Z
  /\ bound (bound [lit "ab;cdef;"] 5) 5 <> bound [lit "ab;cdef;"] 5.
Proof. split; [lia|]. vm_compute. discriminate. Qed.

(** C2, amended.  Bounding a second time changes nothing exactly when no
    block of [bound blocks N] is longer than [N]; a block that is still
    longer is split again and gains a semicolon. *)
Theorem bound_idempotent_iff :
  forall (blocks : list str) (N : Z),
    bound (bound blocks N) N = bound blocks N
    <-> Forall (fun b => (len b <= N)%Z) (bound blocks N).
Proof.
  intros blocks N. split; intros H.
  - apply no_oversized.
    pose proof (bound_semis N (bound blocks N)) as E.
    rewrite H in E. lia.
  - now apply bound_small.
Qed.

(** C7.  A block sequence of one block of 5000 characters without a
    semicolon, bounded at 1200, gives one block of 5001 characters: the
    block with a semicolon appended. *)
Theorem bound_block_without_semicolon :
  forall blk : str,
    is_block blk -> len blk = 5000%Z -> no_semicolon blk = true ->
    bound [blk] 1200 = [blk ++ [semicolon]]
    /\ len (blk ++ [semicolon]) = 5001%Z.
Proof.
  intros blk [Hstrip _] Hlen Hsemi.
  assert (Hl : lstrip blk = blk).
  { rewrite <- Hstrip at 1. unfold strip.
    rewrite lstrip_rstrip_comm_head. exact Hstrip. }
  assert (Hlen' : len (blk ++ [semicolon]) = 5001%Z).
  { rewrite len_app, Hlen. reflexivity. }
  split; [|exact Hlen'].
  rewrite bound_flat_map. simpl. rewrite app_nil_r, bound_block_eq.
  rewrite Hlen. simpl.
  rewrite (split_no_sep semicolon blk Hsemi). simpl.
  rewrite Hlen'. simpl.
  rewrite strip_snoc by reflexivity. now rewrite Hl.
Qed.

Lemma bound_block_without_semicolon_witness :
  bound [repeat "a"%char 5000] 1200 = [repeat "a"%char 5000 ++ [semicolon]]
  /\ len (repeat "a"%char 5000 ++ [semicolon]) = 5001%Z.
Proof.
  apply (bound_block_without_semicolon (repeat "a"%char 5000)).
  - split; [vm_compute; reflexivity | discriminate].
  - vm_compute. reflexivity.
  - vm_compute. reflexivity.
Defined.

(** C10.  A block that the bounder emits on its splitting path, that is
    from an input block longer than the bound, is trimmed and ends with a
    semicolon.  For the block [abcdef;] and the bound 5 the last emitted
    block is the lone semicolon. *)
Theorem split_path_blocks_end_with_semicolon :
  (forall (blocks : list str) (N : Z) (blk B : str),
      In blk blocks -> (len blk > N)%Z -> In B (bound_block N blk) ->
      In B (bound blocks N) /\ strip B = B
      /\ exists t, B = t ++ [semicolon])
  /\ bound [lit "abcdef;"] 5 = [lit "abcdef;"; lit ";"].
Proof.
  split; [|reflexivity].
  intros blocks N blk B Hblk Hlen HB.
  split; [apply in_bound; now exists blk|].
  rewrite bound_block_eq in HB.
  destruct (Z.gtb_spec (len blk) N) as [_ | Hle]; [|lia].
  destruct (chunks_shape N _ [] (or_introl eq_refl) B HB) as (t & ->).
  split; [apply strip_idem|].
  exists (lstrip t). now apply strip_snoc.
Qed.

Lemma split_path_blocks_end_with_semicolon_witness :
  In (lit "ab;cdef;") (bound [lit "ab;cdef;"] 5)
  /\ strip (lit "ab;cdef;") = lit "ab;cdef;"
  /\ exists t, lit "ab;cdef;" = t ++ [semicolon].
Proof.
  apply (proj1 split_path_blocks_end_with_semicolon
           [lit "ab;cdef;"] 5%Z (lit "ab;cdef;") (lit "ab;cdef;")).
  - left. reflexivity.
  - reflexivity.
  - vm_compute. left. reflexivity.
Defined.

(** ** The segmenter, one statement at a time *)

Lemma open_step_flag (a : acc) (stmt : str) :
  in_block (open_step a stmt)
  = in_block a || block_start_match (strip stmt).
Proof.
  unfold open_step. destruct (block_start_match (strip stmt)).
  - destruct (truthy (buffer a)); simpl; now rewrite orb_true_r.
  - now rewrite orb_false_r.
Qed.

Lemma open_step_opener (a : acc) (stmt : str) :
  block_start_match (strip stmt) = true ->
  open_step a stmt
  = mk_acc (if truthy (buffer a) then blocks a ++ [strip (buffer a)]
            else blocks a) [] true.
Proof.
  intros H. unfold open_step. rewrite H.
  destruct (buffer a); reflexivity.
Qed.

Lemma open_step_other (a : acc) (stmt : str) :
  block_start_match (strip stmt) = false -> open_step a stmt = a.
Proof. intros H. unfold open_step. now rewrite H. Qed.

Lemma step_close (a : acc) (stmt : str) :
  let a' := append_step (open_step a stmt) stmt in
  closes a' stmt = true ->
  step a stmt = mk_acc (blocks a' ++ [strip (buffer a')]) [] false.
Proof. intros a' H. unfold step, close_step. fold a'. now rewrite H. Qed.

Lemma step_keep (a : acc) (stmt : str) :
  let a' := append_step (open_step a stmt) stmt in
  closes a' stmt = false -> step a stmt = a'.
Proof. intros a' H. unfold step, close_step. fold a'. now rewrite H. Qed.

Lemma acc_eta (a : acc) : a = mk_acc (blocks a) (buffer a) (in_block a).
Proof. now destruct a. Qed.

Lemma append_buffer_nil (stmt : str) : append_buffer [] stmt = stmt.
Proof. reflexivity. Qed.

Lemma append_buffer_cons (c : ascii) (b stmt : str) :
  append_buffer (c :: b) stmt = (c :: b) ++ LF :: stmt.
Proof. reflexivity. Qed.

(** A statement that neither opens nor closes is appended to the buffer. *)
Lemma step_absorb (a : acc) (t : str) :
  block_start_match (strip t) = false ->
  in_block a && block_end_search (strip t) = false ->
  step a t = append_step a t.
Proof.
  intros Ho Hc. rewrite step_keep; rewrite (open_step_other a t Ho);
    [reflexivity | exact Hc].
Qed.

Lemma loop_absorb (l : list str) :
  forall a,
    Forall (fun t => block_start_match (strip t) = false
                     /\ in_block a && block_end_search (strip t) = false) l ->
    segment_loop a l = mk_acc (blocks a) (extend (buffer a) l) (in_block a).
Proof.
  induction l as [|t l IH]; intros a H.
  - apply acc_eta.
  - inversion H as [|? ? [Ho Hc] Hl]; subst.
    unfold segment_loop, extend. simpl.
    rewrite (step_absorb a t Ho Hc). apply (IH (append_step a t) Hl).
Qed.


Lemma extend_cons (b t : str) (l : list str) :
  extend b (t :: l) = extend (append_buffer b t) l.
Proof. reflexivity. Qed.

(** Once the buffer is not empty, every statement is appended after a line
    feed. *)
Lemma extend_nonempty (l : list str) :
  forall b, b <> [] -> extend b l = b ++ concat (map (cons LF) l).
Proof.
  induction l as [|t l IH]; intros b Hb.
  - simpl. now rewrite app_nil_r.
  - rewrite extend_cons. destruct b as [|c b]; [congruence|].
    rewrite append_buffer_cons, IH by discriminate.
    change (concat (map (cons LF) (t :: l)))
      with ((LF :: t) ++ concat (map (cons LF) l)).
    now rewrite <- app_assoc.
Qed.

Lemma join_lf_cons (s : str) (l : list str) :
  join_lf (s :: l) = s ++ concat (map (cons LF) l).
Proof.
  revert s. induction l as [|t l IH]; intros s.
  - simpl. now rewrite app_nil_r.
  - change (join_lf (s :: t :: l)) with (s ++ LF :: join_lf (t :: l)).
    now rewrite IH.
Qed.

Lemma buffer_of_join (s : str) (l : list str) :
  s <> [] -> buffer_of (s :: l) = join_lf (s :: l).
Proof.
  intros Hs. unfold buffer_of. rewrite extend_cons, append_buffer_nil.
  rewrite extend_nonempty by assumption. now rewrite join_lf_cons.
Qed.

(** ** Openers are not blank *)







Lemma begins_with_nonblank (kw s : str) :
  kw <> [] -> begins_with kw s -> s <> [].
Proof.
  intros Hne (k & r & -> & Hk) E. apply app_eq_nil in E.
  destruct E as [-> _]. inversion Hk; congruence.
Qed.

Lemma opener_nonblank (stmt : str) :
  block_start_match (strip stmt) = true -> strip stmt <> [].
Proof.
  intros H E. rewrite E in H. discriminate.
Qed.

Lemma nonblank_app (s x : str) : strip s <> [] -> strip (s ++ x) <> [].
Proof.
  intros H E. apply H. apply strip_nil_iff. apply strip_nil_iff in E.
  apply all_space_app in E. tauto.
Qed.


(** ** Properties of the segmenter *)

(** C5.  The flag tested by the closing branch is the flag of the
    accumulator, raised if the statement is an opener.  A statement
    finalizes the accumulating block as closed exactly when that flag is
    true and the trimmed statement contains the closing pattern: END in
    either case, whitespace, word characters or dollars, whitespace, and a
    semicolon, each run possibly empty.  When the flag is false the
    statement finalizes nothing, whatever it contains: the blocks stay as
    they are and the statement joins the buffer.  The pattern matches the
    bare [END;] as well as [END my_proc;]. *)
Theorem closes_iff_open_and_end_pattern :
  forall (a : acc) (stmt : str),
    in_block (open_step a stmt)
    = (in_block a || block_start_match (strip stmt))
    /\ (finalizes_closed a stmt
        <-> in_block (open_step a stmt) = true
            /\ contains_end_pattern (strip stmt))
    /\ (in_block (open_step a stmt) = false ->
        step a stmt
        = mk_acc (blocks a) (append_buffer (buffer a) stmt) false)
    /\ contains_end_pattern (lit "END;")
    /\ contains_end_pattern (lit "END my_proc;").
Proof.
  intros a stmt. split; [apply open_step_flag|].
  split; [|split].
  - unfold finalizes_closed. rewrite <- block_end_search_spec.
    set (a' := append_step (open_step a stmt) stmt).
    change (in_block (open_step a stmt)) with (in_block a').
    destruct (closes a' stmt) eqn:E.
    + rewrite (step_close a stmt E). fold a'. split; [|reflexivity].
      intros _. unfold closes in E. now apply andb_true_iff in E.
    + rewrite (step_keep a stmt E). fold a'. split.
      * intros H. apply (f_equal blocks) in H. simpl in H.
        apply (f_equal (@length str)) in H. rewrite length_app in H.
        simpl in H. lia.
      * intros [H1 H2]. unfold closes in E. rewrite H1, H2 in E.
        discriminate.
  - intros H. rewrite open_step_flag in H. apply orb_false_iff in H.
    destruct H as [Hin Ho].
    rewrite step_absorb by (assumption || now rewrite Hin).
    unfold append_step. now rewrite Hin.
  - split; apply block_end_search_spec; reflexivity.
Qed.

(** A block opened by the last opener of the statements and never closed
    is the last block. *)
Lemma unclosed_last_opener (pre : list str) (o : str) (rest : list str) :
  block_start_match (strip o) = true ->
  forallb (fun t => negb (block_start_match (strip t))) rest = true ->
  forallb (fun t => negb (block_end_search (strip t))) (o :: rest) = true ->
  segment_stmts (pre ++ o :: rest)
  = blocks (open_step (segment_loop init pre) o)
    ++ [strip (join_lf (o :: rest))]
  /\ strip (join_lf (o :: rest)) <> [].
Proof.
  intros Ho Hrest Hend.
  pose proof (opener_nonblank o Ho) as Hnb.
  assert (Hne : o <> []) by (intros ->; now apply Hnb).
  simpl in Hend. apply andb_true_iff in Hend. destruct Hend as [Heo Hend].
  apply negb_true_iff in Heo.
  assert (Hblank : strip (join_lf (o :: rest)) <> []).
  { rewrite join_lf_cons. now apply nonblank_app. }
  split; [|exact Hblank].
  unfold segment_stmts, segment_loop. rewrite fold_left_app. simpl fold_left.
  fold (segment_loop init pre). set (a := segment_loop init pre).
  rewrite (step_keep a o);
    rewrite (open_step_opener a o Ho);
    [|unfold closes; simpl; exact Heo].
  fold (segment_loop
          (append_step
             (mk_acc (if truthy (buffer a)
                      then blocks a ++ [strip (buffer a)] else blocks a)
                     [] true) o) rest).
  rewrite loop_absorb.
  - unfold finish. cbn [buffer blocks append_step].
    rewrite append_buffer_nil, extend_nonempty, <- join_lf_cons
      by assumption.
    destruct (strip (join_lf (o :: rest))); [congruence | reflexivity].
  - simpl. apply Forall_forall. intros t Ht.
    rewrite forallb_forall in Hrest, Hend.
    specialize (Hrest t Ht). specialize (Hend t Ht).
    apply negb_true_iff in Hrest, Hend. now split.
Qed.

(** Statements with an opener among them have a last opener. *)
Lemma last_opener (l : list str) :
  existsb (fun t => block_start_match (strip t)) l = true ->
  exists mid o rest,
    l = mid ++ o :: rest
    /\ block_start_match (strip o) = true
    /\ forallb (fun t => negb (block_start_match (strip t))) rest = true.
Proof.
  induction l as [|t l IH]; [discriminate|]. intros H.
  destruct (existsb (fun t => block_start_match (strip t)) l) eqn:E.
  - destruct (IH eq_refl) as (mid & o & rest & -> & Ho & Hrest).
    now exists (t :: mid), o, rest.
  - simpl in H. rewrite E, orb_false_r in H.
    exists [], t, l. repeat split; [exact H|].
    apply forallb_forall. intros x Hx. apply negb_true_iff.
    destruct (block_start_match (strip x)) eqn:Ex; [|reflexivity].
    assert (existsb (fun t => block_start_match (strip t)) l = true)
      by (apply existsb_exists; now exists x).
    congruence.
Qed.

(** C9.  The statements of the text have an opener [o], and neither it nor
    any statement after it shows the closing pattern.  Then the segmenter,
    a total function, returns a list of blocks whose last block is the
    block left open: the statements from the last opener [o'] on, joined
    by line feeds and trimmed, which is not blank.  The blocks before it
    are those finalized up to that opener.  When no opener follows [o],
    the last opener is [o] itself. *)
Theorem unclosed_block_is_final_block :
  forall (sqlparse_split : str -> list str) (plsql : str)
         (pre : list str) (o : str) (rest : list str),
    sqlparse_split (normalize plsql) = pre ++ o :: rest ->
    block_start_match (strip o) = true ->
    forallb (fun t => negb (block_end_search (strip t))) (o :: rest) = true ->
    exists (mid : list str) (o' : str) (rest' : list str),
      o :: rest = mid ++ o' :: rest'
      /\ block_start_match (strip o') = true
      /\ forallb (fun t => negb (block_start_match (strip t))) rest' = true
      /\ (forallb (fun t => negb (block_start_match (strip t))) rest = true
          -> mid = [])
      /\ segment sqlparse_split plsql
         = blocks (open_step (segment_loop init (pre ++ mid)) o')
           ++ [strip (join_lf (o' :: rest'))]
      /\ strip (join_lf (o' :: rest')) <> [].
Proof.
  intros sp plsql pre o rest Hsplit Ho Hend.
  destruct (last_opener (o :: rest)) as (mid & o' & rest' & E & Ho' & Hr').
  { simpl. now rewrite Ho. }
  exists mid, o', rest'. split; [exact E|]. split; [exact Ho'|].
  split; [exact Hr'|]. split.
  - intros Hrest. destruct mid as [|m mid]; [reflexivity|].
    injection E as _ E. rewrite forallb_forall in Hrest.
    assert (Hin : In o' rest) by (rewrite E; apply in_elt).
    apply Hrest in Hin. rewrite Ho' in Hin. discriminate.
  - rewrite E, forallb_app in Hend.
    apply andb_true_iff in Hend. destruct Hend as [_ Hend].
    unfold segment. rewrite Hsplit, E, app_assoc.
    now apply unclosed_last_opener.
Qed.

Lemma unclosed_block_is_final_block_witness :
  exists (mid : list str) (o' : str) (rest' : list str),
    [lit "BEGIN"; lit "  NULL;"] = mid ++ o' :: rest'
    /\ block_start_match (strip o') = true
    /\ forallb (fun t => negb (block_start_match (strip t))) rest' = true
    /\ (forallb (fun t => negb (block_start_match (strip t)))
                [lit "  NULL;"] = true
        -> mid = [])
    /\ segment line_splitter (lit "UPDATE t SET x=1;
BEGIN
  NULL;")
       = blocks (open_step
                   (segment_loop init ([lit "UPDATE t SET x=1;"] ++ mid)) o')
         ++ [strip (join_lf (o' :: rest'))]
    /\ strip (join_lf (o' :: rest')) <> [].
Proof.
  apply (unclosed_block_is_final_block line_splitter
           (lit "UPDATE t SET x=1;
BEGIN
  NULL;")
           [lit "UPDATE t SET x=1;"] (lit "BEGIN") [lit "  NULL;"]);
    vm_compute; reflexivity.
Defined.

Example ex_unclosed :
  segment line_splitter (lit "UPDATE t SET x=1;
BEGIN
  NULL;")
  = [lit "UPDATE t SET x=1;"; lit "BEGIN
  NULL;"].
Proof. reflexivity. Qed.




(** A statement with the closing pattern before the last one closes the
    definition early as well: what follows it is left for a third
    block. *)
Example ex_definition_closed_early :
  segment line_splitter (lit "CREATE PROCEDURE p IS x NUMBER;
IF x > 0 THEN NULL; END IF;
END p;
CREATE PROCEDURE q IS BEGIN NULL; END q;")
  = [lit "CREATE PROCEDURE p IS x NUMBER;
IF x > 0 THEN NULL; END IF;"; lit "END p;";
     lit "CREATE PROCEDURE q IS BEGIN NULL; END q;"].
Proof. reflexivity. Qed.



(** ** Content of the blocks *)

Lemma LF_is_space : is_space LF = true.
Proof. reflexivity. Qed.

Lemma nows_cons_space (c : ascii) (s : str) :
  is_space c = true -> nows (c :: s) = nows s.
Proof. intros H. unfold nows. simpl. now rewrite H. Qed.

Lemma nows_append_buffer (b t : str) :
  nows (append_buffer b t) = nows b ++ nows t.
Proof.
  unfold append_buffer. rewrite nows_app.
  destruct (is_empty b); [reflexivity|].
  now rewrite (nows_cons_space LF t LF_is_space).
Qed.

Lemma content_flush (bl : list str) (b : str) (f : bool) :
  content (mk_acc (bl ++ [strip b]) [] f) = content (mk_acc bl b false).
Proof.
  unfold content. simpl. rewrite concat_app, nows_app. simpl.
  now rewrite !app_nil_r, nows_strip.
Qed.

Lemma content_flag (bl : list str) (b : str) (f g : bool) :
  content (mk_acc bl b f) = content (mk_acc bl b g).
Proof. reflexivity. Qed.

Lemma content_open_step (a : acc) (t : str) :
  content (open_step a t) = content a.
Proof.
  unfold open_step. destruct (block_start_match (strip t)); [|reflexivity].
  destruct (truthy (buffer a)); [|reflexivity].
  rewrite content_flush. now destruct a.
Qed.

Lemma content_append_step (a : acc) (t : str) :
  content (append_step a t) = content a ++ nows t.
Proof.
  unfold content. simpl. now rewrite nows_append_buffer, app_assoc.
Qed.

Lemma content_close_step (a : acc) (t : str) :
  content (close_step a t) = content a.
Proof.
  unfold close_step. destruct (closes a t); [|reflexivity].
  rewrite content_flush. now destruct a.
Qed.

Lemma content_step (a : acc) (t : str) :
  content (step a t) = content a ++ nows t.
Proof.
  unfold step.
  now rewrite content_close_step, content_append_step, content_open_step.
Qed.

Lemma content_loop (l : list str) :
  forall a, content (segment_loop a l) = content a ++ nows (concat l).
Proof.
  induction l as [|t l IH]; intros a.
  - simpl. now rewrite app_nil_r.
  - unfold segment_loop. simpl fold_left. fold (segment_loop (step a t) l).
    rewrite IH, content_step. simpl concat.
    now rewrite nows_app, app_assoc.
Qed.

Lemma content_finish (a : acc) : nows (concat (finish a)) = content a.
Proof.
  unfold finish, content.
  destruct (truthy (strip (buffer a))) eqn:E.
  - rewrite concat_app, nows_app. simpl.
    now rewrite app_nil_r, nows_strip.
  - assert (E' : strip (buffer a) = [])
      by (destruct (strip (buffer a)); [reflexivity | discriminate]).
    apply strip_nil_iff, nows_nil_iff in E'.
    now rewrite E', app_nil_r.
Qed.

(** The blocks carry the characters of the statements, whitespace left
    out, in order. *)
Lemma segment_stmts_content (l : list str) :
  nows (concat (segment_stmts l)) = nows (concat l).
Proof.
  unfold segment_stmts. now rewrite content_finish, content_loop.
Qed.

Lemma nows_join_lf (l : list str) : nows (join_lf l) = nows (concat l).
Proof.
  induction l as [|s l IH]; [reflexivity|].
  destruct l as [|t l].
  - simpl. now rewrite app_nil_r.
  - change (join_lf (s :: t :: l)) with (s ++ LF :: join_lf (t :: l)).
    change (concat (s :: t :: l)) with (s ++ concat (t :: l)).
    rewrite !nows_app, <- IH.
    now rewrite (nows_cons_space LF _ LF_is_space).
Qed.

(** ** Runs of statements *)

Lemma buffer_of_snoc (cur : list str) (t : str) :
  buffer_of (cur ++ [t]) = append_buffer (buffer_of cur) t.
Proof. unfold buffer_of, extend. now rewrite fold_left_app. Qed.

Lemma tracks_flush (done : list str) (bl : list str) (b : str) (f g : bool) :
  tracks done (mk_acc bl b f) -> tracks done (mk_acc (bl ++ [strip b]) [] g).
Proof.
  intros (groups & cur & Hd & Hb & Hc). simpl in *.
  exists (groups ++ [cur]), []. simpl. repeat split.
  - rewrite concat_app. simpl. now rewrite !app_nil_r.
  - rewrite map_app. simpl. now rewrite Hb, Hc.
Qed.

Lemma tracks_flag (done : list str) (bl : list str) (b : str) (f g : bool) :
  tracks done (mk_acc bl b f) -> tracks done (mk_acc bl b g).
Proof. intros H. exact H. Qed.

Lemma tracks_open_step (done : list str) (a : acc) (t : str) :
  tracks done a -> tracks done (open_step a t).
Proof.
  intros H. rewrite (acc_eta a) in H. unfold open_step.
  destruct (block_start_match (strip t)); [|now rewrite (acc_eta a)].
  destruct (truthy (buffer a)).
  - now apply tracks_flush with (f := in_block a).
  - now apply tracks_flag with (f := in_block a).
Qed.

Lemma tracks_append_step (done : list str) (a : acc) (t : str) :
  tracks done a -> tracks (done ++ [t]) (append_step a t).
Proof.
  intros (groups & cur & Hd & Hb & Hc).
  exists groups, (cur ++ [t]). simpl. repeat split.
  - now rewrite Hd, app_assoc.
  - exact Hb.
  - now rewrite buffer_of_snoc, Hc.
Qed.

Lemma tracks_close_step (done : list str) (a : acc) (t : str) :
  tracks done a -> tracks done (close_step a t).
Proof.
  intros H. unfold close_step. destruct (closes a t); [|exact H].
  rewrite (acc_eta a) in H. now apply tracks_flush with (f := in_block a).
Qed.

Lemma tracks_step (done : list str) (a : acc) (t : str) :
  tracks done a -> tracks (done ++ [t]) (step a t).
Proof.
  intros H. unfold step.
  now apply tracks_close_step, tracks_append_step, tracks_open_step.
Qed.

Lemma tracks_loop (l : list str) :
  forall done a, tracks done a -> tracks (done ++ l) (segment_loop a l).
Proof.
  induction l as [|t l IH]; intros done a H.
  - now rewrite app_nil_r.
  - unfold segment_loop. simpl fold_left. fold (segment_loop (step a t) l).
    change (t :: l) with ([t] ++ l). rewrite app_assoc.
    now apply IH, tracks_step.
Qed.

Lemma tracks_finish (done : list str) (a : acc) :
  tracks done a -> partitions done (finish a).
Proof.
  intros (groups & cur & Hd & Hb & Hc). unfold finish, partitions.
  destruct (truthy (strip (buffer a))) eqn:E.
  - exists (groups ++ [cur]), []. repeat split.
    + rewrite concat_app. simpl. now rewrite !app_nil_r.
    + rewrite map_app. simpl. now rewrite Hb, <- Hc.
  - exists groups, cur. repeat split; try assumption.
    rewrite <- Hc. destruct (strip (buffer a)); [reflexivity | discriminate].
Qed.

Lemma segment_stmts_partitions (l : list str) :
  partitions l (segment_stmts l).
Proof.
  unfold segment_stmts. apply tracks_finish.
  apply (tracks_loop l [] init). now exists [], [].
Qed.

(** C3.  When the splitter keeps the content of the normalized text, the
    blocks rejoined with line feeds and the trimmed normalized text have
    the same characters in the same order once whitespace is left out.  The
    blocks are the trimmed buffers of consecutive runs of statements that
    make up the statement sequence in order, so no statement is dropped,
    duplicated or reordered, and trimming touches block boundaries only. *)
Theorem segment_preserves_content :
  forall (sqlparse_split : str -> list str) (plsql : str),
    preserves_content sqlparse_split (normalize plsql) ->
    nows (join_lf (segment sqlparse_split plsql))
    = nows (strip (normalize plsql))
    /\ partitions (sqlparse_split (normalize plsql))
                  (segment sqlparse_split plsql).
Proof.
  intros sp plsql H. split.
  - unfold segment. rewrite nows_join_lf, segment_stmts_content, nows_strip.
    exact H.
  - apply segment_stmts_partitions.
Qed.

Lemma segment_preserves_content_witness :
  nows (join_lf (segment line_splitter (lit "  UPDATE t SET x=1;
CREATE PROCEDURE p IS
BEGIN NULL;
END p;
 UPDATE u SET y=2; ")))
  = nows (strip (normalize (lit "  UPDATE t SET x=1;
CREATE PROCEDURE p IS
BEGIN NULL;
END p;
 UPDATE u SET y=2; ")))
  /\ partitions
       (line_splitter (normalize (lit "  UPDATE t SET x=1;
CREATE PROCEDURE p IS
BEGIN NULL;
END p;
 UPDATE u SET y=2; ")))
       (segment line_splitter (lit "  UPDATE t SET x=1;
CREATE PROCEDURE p IS
BEGIN NULL;
END p;
 UPDATE u SET y=2; ")).
Proof.
  apply (segment_preserves_content line_splitter).
  vm_compute. reflexivity.
Defined.

(** ** Blank texts and blank statements *)

Lemma is_blank_spec (s : str) : is_blank s = true <-> all_space s.
Proof.
  unfold is_blank, all_space. rewrite forallb_forall, Forall_forall.
  reflexivity.
Qed.

Lemma starts_with_spec (old : str) :
  forall s, starts_with old s = true <-> exists r, s = old ++ r.
Proof.
  induction old as [|o old IH]; intros s.
  - destruct s; simpl; split; intros; eauto.
  - destruct s as [|c s]; simpl.
    + split; [discriminate | intros (? & [=])].
    + rewrite andb_true_iff, Ascii.eqb_eq, IH. split.
      * intros [-> (r & ->)]. now exists r.
      * intros (r & [= -> ->]). split; [reflexivity | now exists r].
Qed.

(** Replacing whitespace by whitespace keeps the other characters. *)
Lemma nows_replace_from (old new : str) :
  old <> [] -> all_space old -> all_space new ->
  forall s skip,
    all_space (firstn skip s) ->
    nows (replace_from old new skip s) = nows s.
Proof.
  intros Hne Hold Hnew. induction s as [|c s IH]; intros skip Hskip.
  - reflexivity.
  - destruct skip as [|k].
    + simpl replace_from.
      destruct (starts_with old (c :: s)) eqn:E.
      * apply starts_with_spec in E. destruct E as (r & E).
        destruct old as [|o old]; [congruence|].
        injection E as -> ->. inversion Hold as [|? ? Ho Hold']; subst.
        rewrite nows_app, (proj2 (nows_nil_iff new) Hnew). simpl app.
        rewrite (nows_cons_space o _ Ho). apply IH.
        simpl length. rewrite Nat.sub_0_r, firstn_app, Nat.sub_diag.
        rewrite firstn_all. simpl. now rewrite app_nil_r.
      * unfold nows. simpl. destruct (is_space c); simpl;
          fold (nows (replace_from old new 0 s)); fold (nows s);
          rewrite (IH 0) by constructor; reflexivity.
    + simpl in Hskip. inversion Hskip as [|? ? Hc Hk]; subst.
      simpl replace_from. rewrite (nows_cons_space c s Hc). now apply IH.
Qed.

Lemma nows_replace (old new s : str) :
  old <> [] -> all_space old -> all_space new ->
  nows (replace old new s) = nows s.
Proof.
  intros. unfold replace. apply nows_replace_from; try assumption.
  constructor.
Qed.

(** Normalizing the line endings changes whitespace only. *)
Lemma nows_normalize (plsql : str) : nows (normalize plsql) = nows plsql.
Proof.
  unfold normalize. rewrite !nows_replace;
    solve [reflexivity | discriminate | repeat constructor].
Qed.

Lemma all_space_concat (l : list str) :
  all_space (concat l) -> Forall all_space l.
Proof.
  induction l as [|s l IH]; simpl; intros H; [constructor|].
  apply all_space_app in H. destruct H. constructor; auto.
Qed.

Lemma blank_not_opener (t : str) :
  all_space t -> block_start_match (strip t) = false.
Proof. intros H. apply strip_nil_iff in H. now rewrite H. Qed.

Lemma all_space_append_buffer (b t : str) :
  all_space b -> all_space t -> all_space (append_buffer b t).
Proof.
  intros Hb Ht. unfold append_buffer. apply all_space_app. split; [assumption|].
  destruct (is_empty b); [assumption|]. constructor; [reflexivity | assumption].
Qed.

Lemma all_space_extend (l : list str) :
  forall b, all_space b -> Forall all_space l -> all_space (extend b l).
Proof.
  induction l as [|t l IH]; intros b Hb Hl; [exact Hb|].
  inversion Hl; subst. rewrite extend_cons.
  apply IH; [now apply all_space_append_buffer | assumption].
Qed.

(** Blank statements give no block. *)
Lemma segment_stmts_blank (l : list str) :
  Forall all_space l -> segment_stmts l = [].
Proof.
  intros H. unfold segment_stmts. rewrite loop_absorb.
  - unfold finish. simpl.
    assert (E : strip (extend [] l) = []).
    { apply strip_nil_iff, all_space_extend; [constructor | assumption]. }
    now rewrite E.
  - apply Forall_forall. intros t Ht. rewrite Forall_forall in H.
    split; [apply blank_not_opener; auto | reflexivity].
Qed.

(** C8.  For a text of whitespace only, the empty text among them, the
    segmenter returns no block, the splitter keeping the content of the
    text (it makes up no statement with a character that is not
    whitespace). *)
Theorem segment_blank_input :
  forall (sqlparse_split : str -> list str) (plsql : str),
    is_blank plsql = true ->
    preserves_content sqlparse_split (normalize plsql) ->
    segment sqlparse_split plsql = [].
Proof.
  intros sp plsql Hb Hsp. unfold segment. apply segment_stmts_blank.
  apply all_space_concat, nows_nil_iff. rewrite Hsp, nows_normalize.
  now apply nows_nil_iff, is_blank_spec.
Qed.

Lemma segment_blank_input_witness :
  segment line_splitter [] = []
  /\ segment line_splitter [" "%char; CR; LF; " "%char; CR; " "%char] = [].
Proof.
  split; apply (segment_blank_input line_splitter); vm_compute; reflexivity.
Defined.

(** ** No blank block *)

Lemma never_blank_spec (t : str) :
  never_blank t = true <-> t = [] \/ strip t <> [].
Proof.
  unfold never_blank. rewrite orb_true_iff.
  destruct t as [|c t]; simpl.
  - split; intros _; now left.
  - destruct (strip (c :: t)); simpl; split; intros [H | H];
      try discriminate; try congruence; now right.
Qed.

Lemma truthy_spec (s : str) : truthy s = true <-> s <> [].
Proof. destruct s; simpl; split; congruence. Qed.

Lemma well_filled_flush (bl : list str) (b : str) (f g : bool) :
  well_filled (mk_acc bl b f) -> strip b <> [] ->
  well_filled (mk_acc (bl ++ [strip b]) [] g).
Proof.
  intros [Hbl _] Hb. split; simpl in *; [|now left].
  apply Forall_app. split; [assumption|]. constructor; [|constructor].
  now rewrite strip_idem.
Qed.

Lemma well_filled_open_step (a : acc) (t : str) :
  well_filled a -> well_filled (open_step a t).
Proof.
  intros H. unfold open_step.
  destruct (block_start_match (strip t)); [|exact H].
  destruct (truthy (buffer a)) eqn:E.
  - rewrite (acc_eta a) in H.
    apply well_filled_flush with (f := in_block a); [exact H|].
    apply truthy_spec in E. destruct H as [_ [H | H]]; simpl in H;
      [congruence | exact H].
  - exact H.
Qed.

Lemma well_filled_append_step (a : acc) (t : str) :
  never_blank t = true -> well_filled a -> well_filled (append_step a t).
Proof.
  intros Ht [Hbl Hb]. split; [exact Hbl|]. simpl.
  apply never_blank_spec in Ht.
  destruct (buffer a) as [|c b] eqn:E.
  - rewrite append_buffer_nil. exact Ht.
  - right. rewrite append_buffer_cons. apply nonblank_app.
    destruct Hb as [Hb | Hb]; [discriminate | exact Hb].
Qed.

Lemma append_buffer_nil_inv (b t : str) :
  append_buffer b t = [] -> t = [].
Proof.
  unfold append_buffer. destruct b; simpl; [auto | discriminate].
Qed.

Lemma well_filled_close_step (a : acc) (t : str) :
  well_filled (append_step a t) ->
  well_filled (close_step (append_step a t) t).
Proof.
  intros H. unfold close_step.
  destruct (closes (append_step a t) t) eqn:E; [|exact H].
  apply well_filled_flush with (f := in_block a); [exact H|].
  destruct H as [_ [H | H]]; [|exact H]. simpl in H.
  apply append_buffer_nil_inv in H. subst t.
  unfold closes in E. rewrite andb_true_iff in E. destruct E as [_ E].
  discriminate.
Qed.

Lemma well_filled_step (a : acc) (t : str) :
  never_blank t = true -> well_filled a -> well_filled (step a t).
Proof.
  intros Ht H. unfold step.
  now apply well_filled_close_step, well_filled_append_step,
    well_filled_open_step.
Qed.

Lemma well_filled_loop (l : list str) :
  forall a,
    forallb never_blank l = true -> well_filled a ->
    well_filled (segment_loop a l).
Proof.
  induction l as [|t l IH]; intros a Hl H; [exact H|].
  simpl in Hl. apply andb_true_iff in Hl. destruct Hl as [Ht Hl].
  unfold segment_loop. simpl fold_left. fold (segment_loop (step a t) l).
  apply IH; [assumption | now apply well_filled_step].
Qed.

Lemma finish_nonblank (a : acc) :
  well_filled a -> Forall (fun b => strip b <> []) (finish a).
Proof.
  intros [Hbl _]. unfold finish.
  destruct (truthy (strip (buffer a))) eqn:E; [|exact Hbl].
  apply Forall_app. split; [assumption|]. constructor; [|constructor].
  rewrite strip_idem. now apply truthy_spec.
Qed.

Lemma segment_stmts_nonblank (l : list str) :
  forallb never_blank l = true ->
  Forall (fun b => strip b <> []) (segment_stmts l).
Proof.
  intros H. unfold segment_stmts. apply finish_nonblank.
  apply well_filled_loop; [assumption|]. split; [constructor | now left].
Qed.

Lemma bound_block_nonblank (N : Z) (blk B : str) :
  strip blk <> [] -> In B (bound_block N blk) -> strip B <> [].
Proof.
  intros Hblk HB. rewrite bound_block_eq in HB.
  destruct (len blk >? N)%Z.
  - destruct (chunks_shape N _ [] (or_introl eq_refl) B HB) as (t & ->).
    rewrite strip_idem, strip_snoc by reflexivity.
    intros E. now apply app_eq_nil in E.
  - destruct HB as [<- | []]. exact Hblk.
Qed.

Lemma bound_nonblank (N : Z) (blocks : list str) :
  Forall (fun b => strip b <> []) blocks ->
  Forall (fun b => strip b <> []) (bound blocks N).
Proof.
  intros H. apply Forall_forall. intros B HB.
  apply in_bound in HB. destruct HB as (blk & Hblk & HB).
  rewrite Forall_forall in H.
  apply (bound_block_nonblank N blk B (H blk Hblk) HB).
Qed.

(** C4.  The statements of the splitter being trimmed, as those of
    [sqlparse.split] are, or just never blank (each is empty or has a
    character that is not whitespace), no block of the segmenter and no
    block of the bounder applied to them is empty after trimming. *)
Theorem no_blank_block :
  forall (sqlparse_split : str -> list str) (plsql : str) (N : Z),
    forallb never_blank (sqlparse_split (normalize plsql)) = true ->
    Forall (fun b => strip b <> []) (segment sqlparse_split plsql)
    /\ Forall (fun b => strip b <> [])
              (bound (segment sqlparse_split plsql) N).
Proof.
  intros sp plsql N H.
  assert (Hs : Forall (fun b => strip b <> []) (segment sp plsql))
    by now apply segment_stmts_nonblank.
  split; [exact Hs | now apply bound_nonblank].
Qed.

Lemma no_blank_block_witness :
  Forall (fun b => strip b <> [])
         (segment line_splitter (lit "DECLARE x NUMBER;
BEGIN x := 1; y := 2; END;
UPDATE t SET x=1;"))
  /\ Forall (fun b => strip b <> [])
            (bound (segment line_splitter (lit "DECLARE x NUMBER;
BEGIN x := 1; y := 2; END;
UPDATE t SET x=1;")) 10).
Proof.
  apply (no_blank_block line_splitter). vm_compute. reflexivity.
Defined.

(** The condition on the statements is needed: the opening branch tests
    the buffer, not its trimmed form, so a blank statement followed by an
    opener is finalized as an empty block. *)
Remark blank_statement_before_opener :
  segment_stmts [lit " "; lit "BEGIN"] = [lit ""; lit "BEGIN"].
Proof. reflexivity. Qed.

(** ** Further properties of the size bounder *)

Lemma chunks_content (N : Z) (l : list str) :
  forall temp, nows (concat (chunks N temp l)) = nows temp ++ nows (glue l).
Proof.
  induction l as [|s l IH]; intros temp.
  - change (glue []) with (@nil ascii). simpl.
    destruct (truthy (strip temp)) eqn:E; simpl.
    + now rewrite !app_nil_r, nows_strip.
    + assert (E' : strip temp = [])
        by (destruct (strip temp); [reflexivity | discriminate]).
      apply strip_nil_iff, nows_nil_iff in E'. now rewrite E'.
  - rewrite glue_cons. simpl.
    destruct (len (temp ++ s ++ [semicolon]) >=? N)%Z.
    + simpl. rewrite nows_app, IH, nows_strip, !nows_app. simpl.
      now rewrite <- !app_assoc.
    + rewrite IH, !nows_app. now rewrite <- !app_assoc.
Qed.

Lemma bound_block_content (N : Z) (blk : str) :
  nows (concat (bound_block N blk)) = nows (carried N blk).
Proof.
  rewrite bound_block_eq. unfold carried. destruct (len blk >? N)%Z.
  - now rewrite chunks_content, glue_split.
  - simpl. now rewrite app_nil_r.
Qed.

(** X2.  The bounder keeps the characters of the blocks that are not
    whitespace, in order; a block longer than the bound gains one
    semicolon at its end, and nothing else is added or lost. *)
Theorem bound_keeps_content :
  forall (blocks : list str) (N : Z),
    nows (concat (bound blocks N))
    = nows (concat (map (carried N) blocks)).
Proof.
  intros blocks N. rewrite bound_flat_map.
  induction blocks as [|b bs IH]; [reflexivity|]. simpl.
  now rewrite concat_app, !nows_app, IH, bound_block_content.
Qed.

(** X3.  The bounder handles the blocks one by one and in order: bounding
    two sequences one after the other is bounding each. *)
Theorem bound_of_concatenation :
  forall (a b : list str) (N : Z),
    bound (a ++ b) N = bound a N ++ bound b N.
Proof.
  intros a b N. rewrite !bound_flat_map. apply flat_map_app.
Qed.

(** X4.  A block longer than the bound that has no semicolon cannot be
    cut: it comes out as one block, its text with a semicolon appended,
    whatever the bound. *)
Theorem bound_unsplittable_block :
  forall (blk : str) (N : Z),
    (len blk > N)%Z -> no_semicolon blk = true ->
    bound [blk] N = [lstrip blk ++ [semicolon]].
Proof.
  intros blk N Hlen Hsemi.
  rewrite bound_flat_map. simpl. rewrite app_nil_r, bound_block_eq.
  destruct (Z.gtb_spec (len blk) N) as [_ | Hle]; [|lia].
  rewrite (split_no_sep semicolon blk Hsemi). simpl.
  assert (E : (len (blk ++ [semicolon]) >=? N)%Z = true).
  { rewrite Z.geb_leb. apply Z.leb_le. rewrite len_app.
    pose proof (len_nonneg [semicolon]). lia. }
  rewrite E. simpl. now rewrite strip_snoc by reflexivity.
Qed.

Lemma bound_unsplittable_block_witness :
  bound [lit "  SELECT 1 FROM dual"] 10
  = [lstrip (lit "  SELECT 1 FROM dual") ++ [semicolon]].
Proof.
  apply bound_unsplittable_block; vm_compute; reflexivity.
Defined.

Lemma chunks_flush_all (N : Z) (l : list str) :
  (N <= 1)%Z -> chunks N [] l = map (fun s => strip (s ++ [semicolon])) l.
Proof.
  intros HN. induction l as [|s l IH]; [reflexivity|]. simpl.
  assert (E : (len (s ++ [semicolon]) >=? N)%Z = true).
  { rewrite Z.geb_leb. apply Z.leb_le. rewrite len_app.
    pose proof (len_nonneg s). change (len [semicolon]) with 1%Z. lia. }
  rewrite E. now rewrite IH.
Qed.

(** X5.  With a bound of 1 or less, zero and negative bounds included, a
    block longer than the bound is cut at every semicolon: the output is
    its fragments, each with a semicolon and trimmed. *)
Theorem bound_tiny_limit_cuts_at_every_semicolon :
  forall (blk : str) (N : Z),
    (N <= 1)%Z -> (len blk > N)%Z ->
    bound [blk] N
    = map (fun s => strip (s ++ [semicolon])) (split semicolon blk).
Proof.
  intros blk N HN Hlen.
  rewrite bound_flat_map. simpl. rewrite app_nil_r, bound_block_eq.
  destruct (Z.gtb_spec (len blk) N) as [_ | Hle]; [|lia].
  now apply chunks_flush_all.
Qed.

Lemma bound_tiny_limit_witness :
  bound [lit "a; b;c"] 0
  = map (fun s => strip (s ++ [semicolon])) (split semicolon (lit "a; b;c")).
Proof.
  apply bound_tiny_limit_cuts_at_every_semicolon; [lia | reflexivity].
Defined.

Lemma chunks_count_le (N : Z) (l : list str) :
  forall temp,
    length (chunks N temp l)
    <= length l + (if truthy (strip temp) then 1 else 0).
Proof.
  induction l as [|s l IH]; intros temp; simpl.
  - destruct (truthy (strip temp)); simpl; lia.
  - destruct (len (temp ++ s ++ [semicolon]) >=? N)%Z.
    + simpl. specialize (IH []). simpl in IH. lia.
    + specialize (IH (temp ++ s ++ [semicolon])).
      destruct (truthy (strip (temp ++ s ++ [semicolon]))); lia.
Qed.

Lemma chunks_nonempty (N : Z) (l : list str) :
  forall t, chunks N (t ++ [semicolon]) l <> [].
Proof.
  induction l as [|s l IH]; intros t; simpl.
  - rewrite strip_snoc by reflexivity.
    destruct (lstrip t); simpl; discriminate.
  - destruct (len ((t ++ [semicolon]) ++ s ++ [semicolon]) >=? N)%Z.
    + discriminate.
    + rewrite (app_assoc (t ++ [semicolon]) s [semicolon]). apply IH.
Qed.

Lemma split_length (s : str) :
  length (split semicolon s) = S (semis s).
Proof.
  induction s as [|c s IH]; [reflexivity|]. simpl. unfold semis. simpl.
  unfold is_semicolon at 1.
  destruct (Ascii.eqb c semicolon); simpl.
  - now rewrite IH.
  - destruct (split_cons semicolon s) as (f & fs & E). rewrite E in *.
    exact IH.
Qed.

(** X6.  A block longer than the bound is never dropped and never gives
    more blocks than it has fragments, that is its number of semicolons
    plus one. *)
Theorem bound_block_count :
  forall (blk : str) (N : Z),
    (len blk > N)%Z ->
    1 <= length (bound [blk] N) <= S (semis blk).
Proof.
  intros blk N Hlen.
  rewrite bound_flat_map. simpl. rewrite app_nil_r, bound_block_eq.
  destruct (Z.gtb_spec (len blk) N) as [_ | Hle]; [|lia].
  split.
  - destruct (split_cons semicolon blk) as (f & fs & E). rewrite E.
    assert (H : chunks N [] (f :: fs) <> []).
    { simpl. destruct (len (f ++ [semicolon]) >=? N)%Z; [discriminate|].
      apply chunks_nonempty. }
    destruct (chunks N [] (f :: fs)); [congruence | simpl; lia].
  - pose proof (chunks_count_le N (split semicolon blk) []) as H.
    simpl in H. rewrite split_length in H. lia.
Qed.

Lemma bound_block_count_witness :
  1 <= length (bound [lit "ab;cdef;gh"] 5) <= S (semis (lit "ab;cdef;gh")).
Proof.
  apply bound_block_count. reflexivity.
Defined.

(** ** Further properties of the segmenter *)

Lemma trimmed_flush (bl : list str) (b : str) :
  Forall trimmed bl -> Forall trimmed (bl ++ [strip b]).
Proof.
  intros H. apply Forall_app. split; [assumption|].
  constructor; [apply strip_idem | constructor].
Qed.

Lemma trimmed_step (a : acc) (t : str) :
  Forall trimmed (blocks a) -> Forall trimmed (blocks (step a t)).
Proof.
  intros H. unfold step, close_step, append_step, open_step.
  destruct (block_start_match (strip t));
    [destruct (truthy (buffer a))|];
    match goal with |- context [closes ?x t] => destruct (closes x t) end;
    simpl; auto using trimmed_flush.
Qed.

Lemma trimmed_loop (l : list str) :
  forall a,
    Forall trimmed (blocks a) -> Forall trimmed (blocks (segment_loop a l)).
Proof.
  induction l as [|t l IH]; intros a H; [exact H|].
  unfold segment_loop. simpl fold_left. fold (segment_loop (step a t) l).
  now apply IH, trimmed_step.
Qed.

Lemma segment_stmts_trimmed (l : list str) :
  Forall trimmed (segment_stmts l).
Proof.
  unfold segment_stmts, finish.
  pose proof (trimmed_loop l init (Forall_nil _)) as H.
  destruct (truthy (strip (buffer (segment_loop init l))));
    [now apply trimmed_flush | exact H].
Qed.

Lemma bound_trimmed (N : Z) (blocks : list str) :
  Forall trimmed blocks -> Forall trimmed (bound blocks N).
Proof.
  intros H. apply Forall_forall. intros B HB.
  apply in_bound in HB. destruct HB as (blk & Hblk & HB).
  rewrite bound_block_eq in HB. destruct (len blk >? N)%Z.
  - destruct (chunks_shape N _ [] (or_introl eq_refl) B HB) as (t & ->).
    apply strip_idem.
  - destruct HB as [<- | []]. rewrite Forall_forall in H. now apply H.
Qed.

(** X1.  Every block that [split_plsql_into_blocks] returns is trimmed: it
    neither starts nor ends with whitespace, whatever the splitter, the
    text and the bound. *)
Theorem output_blocks_trimmed :
  forall (sqlparse_split : str -> list str) (plsql : str) (N : Z),
    Forall trimmed (split_plsql_into_blocks sqlparse_split plsql N).
Proof.
  intros sp plsql N. unfold split_plsql_into_blocks, segment.
  apply bound_trimmed, segment_stmts_trimmed.
Qed.

(** X7.  Statements without an opener among them are never separated:
    they all end up in one block, their buffer trimmed, or in none when
    that buffer is blank.  In particular two standalone statements in a
    row make one block. *)
Theorem segment_without_opener :
  forall (sqlparse_split : str -> list str) (plsql : str),
    forallb (fun t => negb (is_opener t))
            (sqlparse_split (normalize plsql)) = true ->
    segment sqlparse_split plsql
    = if truthy (strip (buffer_of (sqlparse_split (normalize plsql))))
      then [strip (buffer_of (sqlparse_split (normalize plsql)))]
      else [].
Proof.
  intros sp plsql H. unfold segment, segment_stmts.
  rewrite loop_absorb; [reflexivity|].
  apply Forall_forall. intros t Ht. rewrite forallb_forall in H.
  specialize (H t Ht). apply negb_true_iff in H. now split.
Qed.

Lemma segment_without_opener_witness :
  segment line_splitter (lit "UPDATE t SET x=1;
UPDATE u SET y=2;")
  = [lit "UPDATE t SET x=1;
UPDATE u SET y=2;"].
Proof.
  apply (segment_without_opener line_splitter (lit "UPDATE t SET x=1;
UPDATE u SET y=2;")).
  vm_compute. reflexivity.
Defined.

(** *** Openers and runs *)

Lemma append_buffer_nil_iff (b t : str) :
  append_buffer b t = [] <-> b = [] /\ t = [].
Proof.
  unfold append_buffer. destruct b; simpl; split.
  - now intros ->.
  - now intros [_ ->].
  - discriminate.
  - intros [H _]. discriminate.
Qed.

Lemma extend_nil_iff (l : list str) :
  forall b, extend b l = [] <-> b = [] /\ Forall (fun t => t = []) l.
Proof.
  induction l as [|t l IH]; intros b.
  - simpl. split; [intros ->; now split | now intros [-> _]].
  - rewrite extend_cons, IH, append_buffer_nil_iff. split.
    + intros [[-> ->] H]. split; [reflexivity | now constructor].
    + intros [-> H]. inversion H; subst. now repeat split.
Qed.

Lemma buffer_of_nil_iff (cur : list str) :
  buffer_of cur = [] <-> Forall (fun t => t = []) cur.
Proof. unfold buffer_of. rewrite extend_nil_iff. tauto. Qed.

Lemma opener_not_empty (o : str) : is_opener o = true -> o <> [].
Proof. intros H ->. discriminate. Qed.

Lemma opener_leads_nil : opener_leads [].
Proof.
  intros pre o post E _. destruct pre; discriminate.
Qed.

Lemma opener_leads_snoc_other (cur : list str) (t : str) :
  opener_leads cur -> is_opener t = false -> opener_leads (cur ++ [t]).
Proof.
  intros H Ht pre o post E Ho.
  destruct (exists_last (l := o :: post)) as (post' & x & Ex); [discriminate|].
  destruct post' as [|o' post'].
  - simpl in Ex. injection Ex as <- ->.
    apply app_inj_tail in E. destruct E as [_ ->]. congruence.
  - simpl in Ex. injection Ex as <- ->.
    change (pre ++ o :: post' ++ [x]) with (pre ++ (o :: post') ++ [x]) in E.
    rewrite app_assoc in E. apply app_inj_tail in E. destruct E as [-> _].
    now apply (H pre o post').
Qed.

Lemma opener_leads_snoc_empties (cur : list str) (t : str) :
  Forall (fun x => x = []) cur -> opener_leads (cur ++ [t]).
Proof.
  intros H pre o post E Ho.
  destruct (exists_last (l := o :: post)) as (post' & x & Ex); [discriminate|].
  destruct post' as [|o' post'].
  - simpl in Ex. injection Ex as <- ->.
    apply app_inj_tail in E. now destruct E as [-> _].
  - simpl in Ex. injection Ex as <- ->.
    change (pre ++ o :: post' ++ [x]) with (pre ++ (o :: post') ++ [x]) in E.
    rewrite app_assoc in E. apply app_inj_tail in E. destruct E as [-> _].
    rewrite Forall_forall in H.
    assert (Hin : In o (pre ++ o :: post')) by apply in_elt.
    apply H in Hin. subst o. discriminate.
Qed.

Lemma tracks_openers_flush (done : list str) (bl : list str) (b : str)
    (f g : bool) :
  tracks_openers done (mk_acc bl b f) -> b <> [] ->
  tracks_openers done (mk_acc (bl ++ [strip b]) [] g).
Proof.
  intros (groups & cur & Hd & Hb & Hc & Hg & Hl) Hne. simpl in *.
  exists (groups ++ [cur]), []. simpl. repeat split.
  - rewrite concat_app. simpl. now rewrite !app_nil_r.
  - rewrite map_app. simpl. now rewrite Hb, Hc.
  - apply Forall_app. split; [assumption|].
    constructor; [|constructor]. split; [|assumption].
    intros ->. now apply Hne.
  - apply opener_leads_nil.
Qed.

Lemma tracks_openers_open_append (done : list str) (a : acc) (t : str) :
  tracks_openers done a ->
  tracks_openers (done ++ [t]) (append_step (open_step a t) t).
Proof.
  intros H. unfold open_step. fold (is_opener t).
  destruct (is_opener t) eqn:Ho.
  - assert (H' : tracks_openers done
                   (if truthy (buffer a)
                    then mk_acc (blocks a ++ [strip (buffer a)]) [] true
                    else mk_acc (blocks a) (buffer a) true)
                 /\ buffer (if truthy (buffer a)
                            then mk_acc (blocks a ++ [strip (buffer a)]) [] true
                            else mk_acc (blocks a) (buffer a) true) = []).
    { destruct (buffer a) as [|c b] eqn:E; simpl.
      - split; [|reflexivity].
        destruct H as (groups & cur & Hd & Hb & Hc & Hg & Hl).
        exists groups, cur. simpl. rewrite E in Hc. now repeat split.
      - split; [|reflexivity]. rewrite (acc_eta a), E in H.
        apply tracks_openers_flush with (f := in_block a);
          [exact H | discriminate]. }
    destruct H' as [(groups & cur & Hd & Hb & Hc & Hg & Hl) He].
    exists groups, (cur ++ [t]). simpl. repeat split.
    + now rewrite Hd, app_assoc.
    + exact Hb.
    + now rewrite buffer_of_snoc, Hc.
    + exact Hg.
    + apply opener_leads_snoc_empties. apply buffer_of_nil_iff.
      now rewrite <- Hc.
  - destruct H as (groups & cur & Hd & Hb & Hc & Hg & Hl).
    exists groups, (cur ++ [t]). simpl. repeat split.
    + now rewrite Hd, app_assoc.
    + exact Hb.
    + now rewrite buffer_of_snoc, Hc.
    + exact Hg.
    + now apply opener_leads_snoc_other.
Qed.

Lemma tracks_openers_step (done : list str) (a : acc) (t : str) :
  tracks_openers done a -> tracks_openers (done ++ [t]) (step a t).
Proof.
  intros H. apply (tracks_openers_open_append done a t) in H.
  unfold step, close_step.
  set (a' := append_step (open_step a t) t) in *.
  destruct (closes a' t) eqn:E; [|exact H].
  rewrite (acc_eta a') in H.
  apply tracks_openers_flush with (f := in_block a'); [exact H|].
  unfold closes in E. apply andb_true_iff in E. destruct E as [_ E].
  unfold a'. simpl. intros Hn. apply append_buffer_nil_inv in Hn.
  subst t. discriminate.
Qed.

Lemma tracks_openers_loop (l : list str) :
  forall done a,
    tracks_openers done a -> tracks_openers (done ++ l) (segment_loop a l).
Proof.
  induction l as [|t l IH]; intros done a H.
  - now rewrite app_nil_r.
  - unfold segment_loop. simpl fold_left. fold (segment_loop (step a t) l).
    change (t :: l) with ([t] ++ l). rewrite app_assoc.
    now apply IH, tracks_openers_step.
Qed.

Lemma segment_stmts_partitions_at_openers (l : list str) :
  partitions_at_openers l (segment_stmts l).
Proof.
  unfold segment_stmts.
  assert (H : tracks_openers l (segment_loop init l)).
  { apply (tracks_openers_loop l [] init).
    exists [], []. repeat split; [constructor | apply opener_leads_nil]. }
  set (a := segment_loop init l) in *. unfold finish.
  destruct (truthy (strip (buffer a))) eqn:E.
  - rewrite (acc_eta a) in H.
    apply tracks_openers_flush with (g := false) in H.
    + destruct H as (groups & cur & Hd & Hb & Hc & Hg & Hl). simpl in *.
      exists groups, cur. repeat split; try assumption.
      rewrite <- Hc. reflexivity.
    + intros Hn. rewrite Hn in E. discriminate.
  - destruct H as (groups & cur & Hd & Hb & Hc & Hg & Hl).
    exists groups, cur. repeat split; try assumption.
    rewrite <- Hc. destruct (strip (buffer a)); [reflexivity | discriminate].
Qed.

(** X8.  An opener always starts a block.  The blocks are the trimmed
    buffers of consecutive runs of statements that cover the statements in
    order; no run is empty, and in a run an opener has only empty
    statements before it, so two definitions are never merged into one
    block. *)
Theorem opener_starts_its_block :
  forall (sqlparse_split : str -> list str) (plsql : str),
    partitions_at_openers (sqlparse_split (normalize plsql))
                          (segment sqlparse_split plsql).
Proof.
  intros sp plsql. apply segment_stmts_partitions_at_openers.
Qed.

Lemma concat_length_ge (groups : list (list str)) :
  Forall (fun g => g <> [] /\ opener_leads g) groups ->
  length groups <= length (concat groups).
Proof.
  induction 1 as [|g gs [Hg _] _ IH]; simpl; [lia|].
  rewrite length_app. destruct g; [congruence | simpl; lia].
Qed.

(** X9.  The segmenter never returns more blocks than the splitter
    returned statements. *)
Theorem segment_block_count :
  forall (sqlparse_split : str -> list str) (plsql : str),
    length (segment sqlparse_split plsql)
    <= length (sqlparse_split (normalize plsql)).
Proof.
  intros sp plsql.
  destruct (segment_stmts_partitions_at_openers (sp (normalize plsql)))
    as (groups & tail & Hd & Hb & _ & Hg).
  unfold segment. rewrite Hb, Hd, length_map, length_app.
  pose proof (concat_length_ge groups Hg). lia.
Qed.

(** ** Line endings *)

Lemma replace_cr_map (s : str) : replace [CR] [LF] s = map_char CR LF s.
Proof.
  unfold replace. induction s as [|c s IH]; [reflexivity|].
  cbn [replace_from starts_with map_char map length Nat.sub].
  fold (map_char CR LF s). rewrite andb_true_r, (Ascii.eqb_sym CR c), IH.
  now destruct (Ascii.eqb c CR).
Qed.

Lemma map_char_none (old new : ascii) (s : str) :
  Forall (fun c => c <> old) s -> map_char old new s = s.
Proof.
  induction 1 as [|c s Hc _ IH]; [reflexivity|]. simpl.
  apply Ascii.eqb_neq in Hc. now rewrite Hc, IH.
Qed.

Lemma map_char_gone (old new : ascii) (s : str) :
  new <> old -> Forall (fun c => c <> old) (map_char old new s).
Proof.
  intros Hn. induction s as [|c s IH]; simpl; constructor; try assumption.
  destruct (Ascii.eqb_spec c old); assumption.
Qed.

Lemma replace_crlf_none (s : str) :
  Forall (fun c => c <> CR) s -> replace [CR; LF] [LF] s = s.
Proof.
  unfold replace. induction 1 as [|c s Hc _ IH]; [reflexivity|].
  cbn [replace_from starts_with].
  apply not_eq_sym, Ascii.eqb_neq in Hc. rewrite Hc. cbn [andb].
  now rewrite IH.
Qed.

Lemma replace_crlf_length (s : str) :
  forall skip,
    length (replace_from [CR; LF] [LF] skip s) <= length s.
Proof.
  induction s as [|c s IH]; intros skip; [simpl; lia|].
  destruct skip as [|k].
  - cbn [replace_from]. destruct (starts_with [CR; LF] (c :: s)).
    + cbn [app length Nat.sub]. specialize (IH 1). lia.
    + cbn [length]. specialize (IH 0). lia.
  - cbn [replace_from length]. specialize (IH k). lia.
Qed.

(** X10.  After the normalization of the line endings no carriage return
    is left and the text has not grown; a text without carriage return is
    left as it is, so normalizing twice is normalizing once. *)
Theorem normalize_line_endings :
  forall plsql : str,
    Forall (fun c => c <> CR) (normalize plsql)
    /\ length (normalize plsql) <= length plsql
    /\ (Forall (fun c => c <> CR) plsql -> normalize plsql = plsql)
    /\ normalize (normalize plsql) = normalize plsql.
Proof.
  intros plsql.
  assert (H1 : forall s, Forall (fun c => c <> CR) (normalize s)).
  { intros s. unfold normalize. rewrite replace_cr_map.
    apply map_char_gone. discriminate. }
  assert (H2 : forall s, Forall (fun c => c <> CR) s -> normalize s = s).
  { intros s Hs. unfold normalize.
    rewrite replace_crlf_none, replace_cr_map by assumption.
    now apply map_char_none. }
  split; [apply H1|]. split; [|split; [apply H2 | apply H2, H1]].
  unfold normalize. rewrite replace_cr_map. unfold map_char.
  rewrite length_map. apply replace_crlf_length.
Qed.

(** ** Credentials and providers *)

Lemma str_eqb_spec (a b : str) : str_eqb a b = true <-> a = b.
Proof.
  unfold str_eqb. destruct (list_eq_dec ascii_dec a b); split;
    congruence.
Qed.

Lemma str_eqb_refl (a : str) : str_eqb a a = true.
Proof. now apply str_eqb_spec. Qed.

Lemma str_eqb_neq (a b : str) : a <> b -> str_eqb a b = false.
Proof.
  intros H. destruct (str_eqb a b) eqn:E; [|reflexivity].
  apply str_eqb_spec in E. contradiction.
Qed.

Lemma py_or_truthy (x y : option str) :
  truthy_value x = true -> py_or x y = x.
Proof. intros H. unfold py_or. now rewrite H. Qed.

Lemma py_or_falsy (x y : option str) :
  truthy_value x = false -> py_or x y = y.
Proof. intros H. unfold py_or. now rewrite H. Qed.

Lemma truthy_value_some (v : str) : v <> [] -> truthy_value (Some v) = true.
Proof. destruct v; simpl; congruence. Qed.

(** Each setting is stored under its name, the value of the session
    first. *)
Lemma load_env_lookup (session : dict) (environ : key -> option str)
    (sk name : key) (dflt : option str) :
  In (sk, name, dflt) credentials ->
  dict_get (load_env_from_session session environ) name
  = Some (py_or (get session sk) (getenv environ name dflt)).
Proof.
  intros H. unfold credentials, setting in H. simpl in H.
  repeat (destruct H as [H | H]; [injection H as <- <- <-; reflexivity|]).
  contradiction.
Qed.

(** X11.  For each of the seven settings, the loaded environment has an
    entry under the name of the setting.  A non-empty value entered in the
    session wins over the process environment; a value that is missing,
    [None] or empty gives way to the environment variable, or to the
    default when the variable is not set; a setting with a default is
    never [None]. *)
Theorem load_env_prefers_session :
  forall (session : dict) (environ : key -> option str)
         (sk name : key) (dflt : option str),
    In (sk, name, dflt) credentials ->
    (forall v, get session sk = Some v -> v <> [] ->
               dict_get (load_env_from_session session environ) name
               = Some (Some v))
    /\ (truthy_value (get session sk) = false ->
        dict_get (load_env_from_session session environ) name
        = Some (getenv environ name dflt))
    /\ (dflt <> None ->
        dict_get (load_env_from_session session environ) name <> Some None).
Proof.
  intros session environ sk name dflt Hin.
  rewrite (load_env_lookup session environ sk name dflt Hin).
  split; [|split].
  - intros v Hv Hne. rewrite Hv.
    now rewrite py_or_truthy by now apply truthy_value_some.
  - intros H. now rewrite py_or_falsy.
  - intros Hd E. injection E as E. unfold py_or in E.
    destruct (truthy_value (get session sk)) eqn:T.
    + rewrite E in T. discriminate.
    + unfold getenv in E. destruct (environ name); congruence.
Qed.

Lemma load_env_prefers_session_witness :
  (forall v, get [entry "openai_api_type" (Some (lit ""))]
                 "openai_api_type" = Some v -> v <> [] ->
             dict_get (load_env_from_session
                         [entry "openai_api_type" (Some (lit ""))]
                         (fun _ => None)) "OPENAI_API_TYPE"
             = Some (Some v))
  /\ (truthy_value (get [entry "openai_api_type" (Some (lit ""))]
                        "openai_api_type") = false ->
      dict_get (load_env_from_session
                  [entry "openai_api_type" (Some (lit ""))]
                  (fun _ => None)) "OPENAI_API_TYPE"
      = Some (getenv (fun _ => None) "OPENAI_API_TYPE" (Some (lit "azure"))))
  /\ (Some (lit "azure") <> None ->
      dict_get (load_env_from_session
                  [entry "openai_api_type" (Some (lit ""))]
                  (fun _ => None)) "OPENAI_API_TYPE" <> Some None).
Proof.
  apply (load_env_prefers_session
           [entry "openai_api_type" (Some (lit ""))] (fun _ => None)
           "openai_api_type" "OPENAI_API_TYPE" (Some (lit "azure"))).
  vm_compute. tauto.
Defined.

Lemma subscript_loaded (session : dict) (environ : key -> option str)
    (sk name : key) (dflt : option str) :
  In (sk, name, dflt) credentials ->
  subscript (load_env_from_session session environ) name
  = Returned (py_or (get session sk) (getenv environ name dflt)).
Proof.
  intros H. unfold subscript.
  now rewrite (load_env_lookup session environ sk name dflt H).
Qed.

Lemma get_loaded (session : dict) (environ : key -> option str)
    (sk name : key) (dflt : option str) :
  In (sk, name, dflt) credentials ->
  get (load_env_from_session session environ) name
  = py_or (get session sk) (getenv environ name dflt).
Proof.
  intros H. unfold get.
  now rewrite (load_env_lookup session environ sk name dflt H).
Qed.

Ltac credential := unfold credentials, setting; simpl; tauto.

(** On the loaded environment every key that the choice of the provider
    reads is there. *)
Lemma get_llm_provider_loaded_returns (session : dict)
    (environ : key -> option str) (choice : str) :
  exists r : option LLMProvider,
    get_llm_provider choice (load_env_from_session session environ)
    = Returned r.
Proof.
  unfold get_llm_provider.
  rewrite (subscript_loaded session environ
             "gemini_api_key" "GEMINI_API_KEY" None) by credential.
  rewrite (subscript_loaded session environ
             "openai_api_key" "OPENAI_API_KEY" None) by credential.
  rewrite (subscript_loaded session environ
             "openai_api_base" "OPENAI_API_BASE" None) by credential.
  rewrite (subscript_loaded session environ
             "openai_api_type" "OPENAI_API_TYPE" (Some (lit "azure")))
    by credential.
  rewrite (subscript_loaded session environ
             "openai_api_version" "OPENAI_API_VERSION" None) by credential.
  rewrite (subscript_loaded session environ
             "deployment_name" "DEPLOYMENT_NAME" None) by credential.
  destruct (str_eqb choice (lit "Gemini")); cbn [bind];
    [match goal with |- context [truthy_value ?g] =>
       destruct (truthy_value g) end; cbn [bind]; try (now eexists)|];
    (destruct (str_eqb choice (lit "Azure OpenAI")); cbn [bind];
     [match goal with |- context [truthy_value ?g] =>
        destruct (truthy_value g) end; cbn [bind]|]; now eexists).
Qed.

(** X12.  On the environment built by [load_env_from_session] the choice
    of the provider never raises: every key it reads is there.  It returns
    no provider exactly when the choice is not one of the two providers or
    the key of the chosen provider is missing or empty. *)
Theorem get_llm_provider_on_loaded_env :
  forall (session : dict) (environ : key -> option str) (choice : str),
    exists r : option LLMProvider,
      get_llm_provider choice (load_env_from_session session environ)
      = Returned r
      /\ (r = None
          <-> (choice <> lit "Gemini"
               \/ truthy_value
                    (get (load_env_from_session session environ)
                         "GEMINI_API_KEY") = false)
              /\ (choice <> lit "Azure OpenAI"
                  \/ truthy_value
                       (get (load_env_from_session session environ)
                            "OPENAI_API_KEY") = false)).
Proof.
  intros session environ choice. unfold get_llm_provider.
  rewrite (get_loaded session environ "gemini_api_key" "GEMINI_API_KEY" None)
    by credential.
  rewrite (get_loaded session environ "openai_api_key" "OPENAI_API_KEY" None)
    by credential.
  rewrite (subscript_loaded session environ
             "gemini_api_key" "GEMINI_API_KEY" None) by credential.
  rewrite (subscript_loaded session environ
             "openai_api_key" "OPENAI_API_KEY" None) by credential.
  rewrite (subscript_loaded session environ
             "openai_api_base" "OPENAI_API_BASE" None) by credential.
  rewrite (subscript_loaded session environ
             "openai_api_type" "OPENAI_API_TYPE" (Some (lit "azure")))
    by credential.
  rewrite (subscript_loaded session environ
             "openai_api_version" "OPENAI_API_VERSION" None) by credential.
  rewrite (subscript_loaded session environ
             "deployment_name" "DEPLOYMENT_NAME" None) by credential.
  set (g := py_or (get session "gemini_api_key")
                  (getenv environ "GEMINI_API_KEY" None)).
  set (o := py_or (get session "openai_api_key")
                  (getenv environ "OPENAI_API_KEY" None)).
  destruct (str_eqb choice (lit "Gemini")) eqn:Eg.
  - apply str_eqb_spec in Eg. subst choice. cbn [bind].
    destruct (truthy_value g) eqn:Tg; cbn [bind].
    + eexists. split; [reflexivity|]. split; [discriminate|].
      intros [[H | H] _]; congruence.
    + eexists. split; [reflexivity|]. split; [|reflexivity].
      intros _. split; [now right | left; discriminate].
  - assert (Hg : choice <> lit "Gemini")
      by (intros ->; now rewrite str_eqb_refl in Eg).
    cbn [bind]. destruct (str_eqb choice (lit "Azure OpenAI")) eqn:Ea.
    + apply str_eqb_spec in Ea. subst choice. cbn [bind].
      destruct (truthy_value o) eqn:To; cbn [bind].
      * eexists. split; [reflexivity|]. split; [discriminate|].
        intros [_ [H | H]]; congruence.
      * eexists. split; [reflexivity|]. split; [|reflexivity].
        intros _. split; [now left | now right].
    + assert (Ha : choice <> lit "Azure OpenAI")
        by (intros ->; now rewrite str_eqb_refl in Ea).
      cbn [bind]. eexists. split; [reflexivity|]. split; [|reflexivity].
      intros _. split; now left.
Qed.

(** X13.  A non-empty key entered in the session is the key the provider
    is built with, whatever the process environment holds: for Gemini the
    provider carries that key; for Azure OpenAI it carries that key and an
    API type that is never [None]. *)
Theorem manual_key_configures_provider :
  forall (session : dict) (environ : key -> option str) (k : str),
    k <> [] ->
    (get session "gemini_api_key" = Some k ->
     get_llm_provider (lit "Gemini") (load_env_from_session session environ)
     = Returned (Some (GeminiProvider (Some k))))
    /\ (get session "openai_api_key" = Some k ->
        exists b t v d,
          get_llm_provider (lit "Azure OpenAI")
                           (load_env_from_session session environ)
          = Returned (Some (OpenAIProvider (Some k) b t v d))
          /\ t <> None).
Proof.
  intros session environ k Hk.
  pose proof (truthy_value_some k Hk) as Tk.
  split; intros Hs; unfold get_llm_provider.
  - rewrite (subscript_loaded session environ
               "gemini_api_key" "GEMINI_API_KEY" None) by credential.
    rewrite Hs, py_or_truthy by exact Tk. rewrite str_eqb_refl.
    cbn [bind]. now rewrite Tk.
  - rewrite (subscript_loaded session environ
               "openai_api_key" "OPENAI_API_KEY" None) by credential.
    rewrite (subscript_loaded session environ
               "openai_api_base" "OPENAI_API_BASE" None) by credential.
    rewrite (subscript_loaded session environ
               "openai_api_type" "OPENAI_API_TYPE" (Some (lit "azure")))
      by credential.
    rewrite (subscript_loaded session environ
               "openai_api_version" "OPENAI_API_VERSION" None) by credential.
    rewrite (subscript_loaded session environ
               "deployment_name" "DEPLOYMENT_NAME" None) by credential.
    rewrite Hs, py_or_truthy by exact Tk.
    rewrite (str_eqb_neq (lit "Azure OpenAI") (lit "Gemini")) by discriminate.
    rewrite str_eqb_refl. cbn [bind]. rewrite Tk. cbn [bind].
    do 4 eexists. split; [reflexivity|].
    unfold py_or. destruct (truthy_value (get session "openai_api_type")) eqn:T.
    + intros E. rewrite E in T. discriminate.
    + unfold getenv. match goal with
      | |- context [environ ?n] => destruct (environ n)
      end; discriminate.
Qed.

Lemma manual_key_configures_provider_witness :
  (get [entry "gemini_api_key" (Some (lit "k1"))] "gemini_api_key"
   = Some (lit "k1") ->
   get_llm_provider (lit "Gemini")
     (load_env_from_session [entry "gemini_api_key" (Some (lit "k1"))]
        (fun _ => Some (lit "from-env")))
   = Returned (Some (GeminiProvider (Some (lit "k1")))))
  /\ (get [entry "gemini_api_key" (Some (lit "k1"))] "openai_api_key"
      = Some (lit "k1") ->
      exists b t v d,
        get_llm_provider (lit "Azure OpenAI")
          (load_env_from_session [entry "gemini_api_key" (Some (lit "k1"))]
             (fun _ => Some (lit "from-env")))
        = Returned (Some (OpenAIProvider (Some (lit "k1")) b t v d))
        /\ t <> None).
Proof.
  apply (manual_key_configures_provider
           [entry "gemini_api_key" (Some (lit "k1"))]
           (fun _ => Some (lit "from-env")) (lit "k1")).
  discriminate.
Defined.

(** X14.  On any dict: a choice that is neither provider returns [None]
    without reading the dict; the choice of Gemini raises [KeyError] when
    the dict has no Gemini key, and returns [None], without reading the
    OpenAI keys, when that key is [None] or empty. *)
Theorem get_llm_provider_edge_cases :
  forall (env : dict),
    (forall choice,
        choice <> lit "Gemini" -> choice <> lit "Azure OpenAI" ->
        get_llm_provider choice env = Returned None)
    /\ (dict_get env "GEMINI_API_KEY" = None ->
        get_llm_provider (lit "Gemini") env
        = Raised (KeyError "GEMINI_API_KEY"))
    /\ (forall v, dict_get env "GEMINI_API_KEY" = Some v ->
                  truthy_value v = false ->
                  get_llm_provider (lit "Gemini") env = Returned None).
Proof.
  intros env. split; [|split].
  - intros choice Hg Ha. unfold get_llm_provider.
    now rewrite (str_eqb_neq _ _ Hg), (str_eqb_neq _ _ Ha).
  - intros H. unfold get_llm_provider, subscript.
    rewrite str_eqb_refl, H. reflexivity.
  - intros v H Hv. unfold get_llm_provider, subscript.
    rewrite str_eqb_refl, H. cbn [bind]. rewrite Hv.
    rewrite (str_eqb_neq (lit "Gemini") (lit "Azure OpenAI")) by discriminate.
    reflexivity.
Qed.

(** ** The conversions kept in the session *)

Lemma all_converted_nil_iff (cbs : list (option str)) :
  all_converted cbs = [] <-> Forall (fun cb => truthy_value cb = false) cbs.
Proof.
  unfold all_converted. induction cbs as [|cb cbs IH]; simpl.
  - split; [constructor | reflexivity].
  - destruct cb as [[|c r]|]; simpl.
    + rewrite IH. split; intros H; [now constructor | now inversion H].
    + split; [discriminate | intros H; inversion H; discriminate].
    + rewrite IH. split; intros H; [now constructor | now inversion H].
Qed.

Lemma all_converted_nonempty (cbs : list (option str)) :
  Forall (fun s => s <> []) (all_converted cbs).
Proof.
  unfold all_converted. induction cbs as [|cb cbs IH]; simpl; [constructor|].
  destruct cb as [[|c r]|]; simpl; try exact IH.
  constructor; [discriminate | exact IH].
Qed.

Lemma join_nonempty (sep s : str) (l : list str) :
  s <> [] -> join sep (s :: l) <> [].
Proof.
  intros Hs. destruct l; simpl; [exact Hs|].
  destruct s; [congruence | discriminate].
Qed.

(** X15.  The merged output is empty exactly when no block has a
    conversion that is a non-empty text: one such conversion is enough for
    the final code to be shown. *)
Theorem final_output_empty_iff :
  forall (separator : str) (cbs : list (option str)),
    final_output separator cbs = []
    <-> Forall (fun cb => truthy_value cb = false) cbs.
Proof.
  intros sep cbs. rewrite <- all_converted_nil_iff. unfold final_output.
  pose proof (all_converted_nonempty cbs) as H.
  destruct (all_converted cbs) as [|s l].
  - split; reflexivity.
  - inversion H; subst. split; [|discriminate].
    intros E. exfalso. now apply (join_nonempty sep s l).
Qed.

Lemma list_assign_ok {A : Type} (l : list A) (i : nat) (v : A) :
  i < length l ->
  exists l', list_assign l i v = Returned l'
             /\ length l' = length l
             /\ forall j, nth_error l' j
                          = if j =? i then Some v else nth_error l j.
Proof.
  intros Hi. unfold list_assign.
  destruct (Nat.ltb_spec i (length l)) as [_ | Hge]; [|lia].
  eexists. split; [reflexivity|]. split.
  - rewrite length_app, length_firstn. cbn [length].
    rewrite length_skipn. lia.
  - intros j. destruct (Nat.eqb_spec j i) as [-> | Hne].
    + rewrite nth_error_app2; rewrite length_firstn;
        [|lia]. replace (i - Nat.min i (length l)) with 0 by lia.
      reflexivity.
    + destruct (Nat.lt_ge_cases j i) as [Hlt | Hge].
      * rewrite nth_error_app1 by (rewrite length_firstn; lia).
        rewrite nth_error_firstn.
        destruct (Nat.ltb_spec j i); [reflexivity | lia].
      * rewrite nth_error_app2 by (rewrite length_firstn; lia).
        rewrite length_firstn.
        replace (j - Nat.min i (length l)) with (S (j - S i)) by lia.
        cbn [nth_error]. rewrite nth_error_skipn. f_equal. lia.
Qed.

Lemma list_item_ok {A : Type} (l : list A) (i : nat) :
  i < length l -> exists x, list_item l i = Returned x.
Proof.
  intros Hi. unfold list_item.
  destruct (nth_error l i) eqn:E; [now eexists|].
  apply nth_error_None in E. lia.
Qed.

Section Loop.

Variable pressed : nat -> bool.
Variable convert : LLMProvider -> nat -> str -> str.
Variable provider : LLMProvider.

Lemma convert_loop_ok (blocks : list str) :
  forall (i : nat) (cbs : list (option str)),
    i + length blocks <= length cbs ->
    exists cbs',
      convert_loop pressed convert provider i blocks cbs = Returned cbs'
      /\ length cbs' = length cbs
      /\ forall j,
           nth_error cbs' j
           = match nth_error blocks (j - i) with
             | Some block =>
                 if (i <=? j) && pressed j
                 then Some (Some (convert provider j block))
                 else nth_error cbs j
             | None => nth_error cbs j
             end.
Proof.
  induction blocks as [|block rest IH]; intros i cbs Hlen.
  - exists cbs. repeat split. intros j. now destruct (j - i).
  - simpl in Hlen. cbn [convert_loop].
    assert (Hstep :
      exists cbs1,
        (if pressed i
         then list_assign cbs i (Some (convert provider i block))
         else Returned cbs) = Returned cbs1
        /\ length cbs1 = length cbs
        /\ forall j, nth_error cbs1 j
                     = if (j =? i) && pressed i
                       then Some (Some (convert provider i block))
                       else nth_error cbs j).
    { destruct (pressed i).
      - destruct (list_assign_ok cbs i (Some (convert provider i block)))
          as (l' & E & Hl & Hn); [lia|].
        exists l'. repeat split; try assumption.
        intros j. rewrite Hn. now rewrite andb_true_r.
      - exists cbs. repeat split. intros j. now rewrite andb_false_r. }
    destruct Hstep as (cbs1 & E1 & Hl1 & Hn1). rewrite E1. cbn [bind].
    destruct (list_item_ok cbs1 i) as (x & Ex); [lia|]. rewrite Ex.
    cbn [bind].
    destruct (IH (S i) cbs1) as (cbs' & E' & Hl' & Hn'); [lia|].
    exists cbs'. split; [exact E'|]. split; [lia|].
    intros j. rewrite Hn', Hn1.
    destruct (Nat.lt_trichotomy j i) as [Hlt | [-> | Hgt]].
    + replace (j - S i) with 0 by lia. replace (j - i) with 0 by lia.
      destruct (Nat.leb_spec (S i) j); [lia|].
      destruct (Nat.leb_spec i j); [lia|].
      destruct (Nat.eqb_spec j i); [lia|]. cbn [nth_error andb].
      now destruct rest.
    + replace (i - S i) with 0 by lia. rewrite Nat.sub_diag, Nat.eqb_refl.
      destruct (Nat.leb_spec (S i) i); [lia|].
      rewrite Nat.leb_refl. cbn [nth_error andb].
      now destruct rest; destruct (pressed i).
    + replace (j - i) with (S (j - S i)) by lia.
      destruct (Nat.leb_spec (S i) j); [|lia].
      destruct (Nat.leb_spec i j); [|lia].
      destruct (Nat.eqb_spec j i); [lia|]. reflexivity.
Qed.

Lemma convert_loop_short (blocks : list str) :
  forall (i : nat) (cbs : list (option str)),
    i <= length cbs -> length cbs < i + length blocks ->
    convert_loop pressed convert provider i blocks cbs = Raised IndexError.
Proof.
  induction blocks as [|block rest IH]; intros i cbs Hi Hlen.
  - simpl in Hlen. lia.
  - simpl in Hlen. cbn [convert_loop].
    destruct (Nat.eq_dec i (length cbs)) as [-> | Hne].
    + destruct (pressed (length cbs)).
      * unfold list_assign. rewrite Nat.ltb_irrefl. reflexivity.
      * cbn [bind]. unfold list_item.
        rewrite (proj2 (nth_error_None cbs (length cbs))) by lia.
        reflexivity.
    + assert (Hstep :
        exists cbs1,
          (if pressed i
           then list_assign cbs i (Some (convert provider i block))
           else Returned cbs) = Returned cbs1
          /\ length cbs1 = length cbs).
      { destruct (pressed i).
        - destruct (list_assign_ok cbs i (Some (convert provider i block)))
            as (l' & E & Hl & _); [lia|]. now exists l'.
        - now exists cbs. }
      destruct Hstep as (cbs1 & E1 & Hl1). rewrite E1. cbn [bind].
      destruct (list_item_ok cbs1 i) as (x & Ex); [lia|]. rewrite Ex.
      cbn [bind]. apply IH; lia.
Qed.

End Loop.

(** X16.  The loop over the blocks goes through without an index error
    exactly when the session holds at least one entry per block.  Then it
    keeps the number of entries; the entry of a block whose button was
    pressed becomes the text returned by the provider, and every other
    entry is left as it was. *)
Theorem convert_loop_updates_pressed_only :
  forall (pressed : nat -> bool) (convert : LLMProvider -> nat -> str -> str)
         (provider : LLMProvider) (blocks : list str)
         (cbs : list (option str)),
    (length blocks <= length cbs ->
     exists cbs',
       convert_loop pressed convert provider 0 blocks cbs = Returned cbs'
       /\ length cbs' = length cbs
       /\ (forall j block,
              nth_error blocks j = Some block ->
              nth_error cbs' j
              = if pressed j then Some (Some (convert provider j block))
                else nth_error cbs j)
       /\ (forall j, length blocks <= j ->
                     nth_error cbs' j = nth_error cbs j))
    /\ (length cbs < length blocks ->
        convert_loop pressed convert provider 0 blocks cbs
        = Raised IndexError).
Proof.
  intros pressed convert provider blocks cbs. split.
  - intros Hlen.
    destruct (convert_loop_ok pressed convert provider blocks 0 cbs)
      as (cbs' & E & Hl & Hn); [simpl; lia|].
    exists cbs'. split; [exact E|]. split; [exact Hl|]. split.
    + intros j block Hj. rewrite Hn, Nat.sub_0_r, Hj. reflexivity.
    + intros j Hj. rewrite Hn, Nat.sub_0_r.
      now rewrite (proj2 (nth_error_None blocks j) Hj).
  - intros Hlen. apply convert_loop_short; simpl; lia.
Qed.

(** ** One run of the script *)

Section Run.

Variable sqlparse_split : str -> list str.
Variable separator : str.
Variable pressed : nat -> bool.
Variable convert : LLMProvider -> nat -> str -> str.

Lemma refresh_entries (sql_code : str) (s : conversions) :
  consistent (blocks_of sqlparse_split) s ->
  exists cbs,
    converted_blocks (refresh (blocks_of sqlparse_split sql_code) sql_code s)
    = Some cbs
    /\ sql_snapshot (refresh (blocks_of sqlparse_split sql_code) sql_code s)
       = Some sql_code
    /\ length cbs = length (blocks_of sqlparse_split sql_code).
Proof.
  intros Hc. unfold refresh, consistent in *.
  destruct (converted_blocks s) as [cbs|] eqn:Ec; simpl.
  - destruct Hc as (t & Ht & Hl). rewrite Ht.
    destruct (str_eqb t sql_code) eqn:E; simpl.
    + apply str_eqb_spec in E. subst t. exists cbs. now repeat split.
    + eexists. repeat split. apply repeat_length.
  - eexists. repeat split. apply repeat_length.
Qed.

Lemma script_with_provider (llm_choice : str) (env : dict) (sql_code : str)
    (s : conversions) (p : LLMProvider) :
  sql_code <> [] ->
  get_llm_provider llm_choice env = Returned (Some p) ->
  consistent (blocks_of sqlparse_split) s ->
  exists cbs cbs',
    converted_blocks (refresh (blocks_of sqlparse_split sql_code) sql_code s)
    = Some cbs
    /\ convert_loop pressed convert p 0 (blocks_of sqlparse_split sql_code) cbs
       = Returned cbs'
    /\ length cbs' = length (blocks_of sqlparse_split sql_code)
    /\ script sqlparse_split separator pressed convert llm_choice env
              sql_code s
       = Returned (mk_conversions (Some cbs') (Some sql_code),
                   Some (final_output separator cbs')).
Proof.
  intros Hne Hp Hc.
  destruct (refresh_entries sql_code s Hc) as (cbs & E1 & E2 & Hl).
  destruct (convert_loop_ok pressed convert p
              (blocks_of sqlparse_split sql_code) 0 cbs)
    as (cbs' & E' & Hl' & _); [simpl; lia|].
  exists cbs, cbs'. split; [exact E1|]. split; [exact E'|].
  split; [lia|].
  unfold script. destruct sql_code as [|c r]; [congruence|].
  cbn [truthy]. rewrite Hp. cbn [bind]. rewrite E1. cbn [bind].
  rewrite E'. cbn [bind]. now rewrite E2.
Qed.

(** X17.  A run of the script on the loaded environment never raises, and
    it keeps the session consistent: conversions are held only together
    with the text they were made for, one entry per block of that text.
    A run that stops early (no text, or no provider) leaves the session as
    it was; a run that reaches the merged output holds one entry per block
    of the current text, which is what the loop and the preview table
    index. *)
Theorem script_keeps_session_consistent :
  forall (session : dict) (environ : key -> option str)
         (llm_choice sql_code : str) (s : conversions),
    consistent (blocks_of sqlparse_split) s ->
    exists (s' : conversions) (out : option str),
      script sqlparse_split separator pressed convert llm_choice
             (load_env_from_session session environ) sql_code s
      = Returned (s', out)
      /\ consistent (blocks_of sqlparse_split) s'
      /\ (out = None -> s' = s)
      /\ (forall text, out = Some text ->
            exists cbs,
              converted_blocks s' = Some cbs
              /\ sql_snapshot s' = Some sql_code
              /\ length cbs = length (blocks_of sqlparse_split sql_code)
              /\ text = final_output separator cbs).
Proof.
  intros session environ llm_choice sql_code s Hc.
  destruct (get_llm_provider_loaded_returns session environ llm_choice)
    as (r & Hr).
  destruct sql_code as [|c rest] eqn:Es.
  - exists s, None. repeat split; [assumption | discriminate].
  - rewrite <- Es in *. destruct r as [p|].
    + assert (Hne : sql_code <> []) by (rewrite Es; discriminate).
      destruct (script_with_provider llm_choice _ sql_code s p Hne Hr Hc)
        as (cbs & cbs' & _ & _ & Hl & E).
      eexists. eexists. split; [exact E|]. split; [|split].
      * unfold consistent. simpl. now exists sql_code.
      * discriminate.
      * intros text [= <-]. exists cbs'. now repeat split.
    + exists s, None. split.
      * unfold script. rewrite Es at 1. cbn [truthy]. rewrite Hr.
        reflexivity.
      * repeat split; [assumption | discriminate].
Qed.

(** The session of a first run, without conversions, is consistent. *)
Lemma empty_session_consistent :
  consistent (blocks_of sqlparse_split) (mk_conversions None None).
Proof. exact I. Qed.

Lemma nothing_pressed_keeps (p : LLMProvider) (blocks : list str)
    (cbs : list (option str)) :
  (forall j, pressed j = false) -> length blocks <= length cbs ->
  convert_loop pressed convert p 0 blocks cbs = Returned cbs.
Proof.
  intros Hp Hl.
  destruct (convert_loop_ok pressed convert p blocks 0 cbs)
    as (cbs' & E & _ & Hn); [simpl; lia|].
  rewrite E. f_equal. apply nth_error_ext. intros j. rewrite Hn, Hp.
  rewrite andb_false_r. now destruct (nth_error blocks (j - 0)).
Qed.

Lemma final_output_none (n : nat) :
  final_output separator (repeat None n) = [].
Proof.
  unfold final_output.
  assert (E : all_converted (repeat None n) = []).
  { apply all_converted_nil_iff, Forall_forall. intros x Hx.
    apply repeat_spec in Hx. now subst. }
  now rewrite E.
Qed.

(** X18.  A run in which no button is pressed, with a text and a provider.
    When the text is not the one the conversions were made for, the old
    conversions are dropped: the session holds one empty entry per block
    of the new text and the merged output is empty.  When the text is the
    same, the session and its conversions are kept as they are. *)
Theorem rerun_without_click :
  forall (llm_choice : str) (env : dict) (sql_code : str) (s : conversions)
         (p : LLMProvider),
    sql_code <> [] ->
    get_llm_provider llm_choice env = Returned (Some p) ->
    (forall j, pressed j = false) ->
    (sql_snapshot s <> Some sql_code ->
     script sqlparse_split separator pressed convert llm_choice env
            sql_code s
     = Returned
         (mk_conversions
            (Some (repeat None (length (blocks_of sqlparse_split sql_code))))
            (Some sql_code),
          Some []))
    /\ (forall cbs,
           sql_snapshot s = Some sql_code ->
           converted_blocks s = Some cbs ->
           length (blocks_of sqlparse_split sql_code) <= length cbs ->
           script sqlparse_split separator pressed convert llm_choice env
                  sql_code s
           = Returned (s, Some (final_output separator cbs))).
Proof.
  intros llm_choice env sql_code s p Hne Hp Hpr.
  assert (Hscript :
    script sqlparse_split separator pressed convert llm_choice env sql_code s
    = (cbs <- match converted_blocks
                      (refresh (blocks_of sqlparse_split sql_code) sql_code s)
              with
              | Some cbs => Returned cbs
              | None => Raised (KeyError "converted_blocks")
              end ;;
       cbs' <- convert_loop pressed convert p 0
                 (blocks_of sqlparse_split sql_code) cbs ;;
       Returned
         (mk_conversions (Some cbs')
            (sql_snapshot
               (refresh (blocks_of sqlparse_split sql_code) sql_code s)),
          Some (final_output separator cbs')))).
  { unfold script. destruct sql_code; [congruence|]. cbn [truthy].
    rewrite Hp. reflexivity. }
  rewrite Hscript. split.
  - intros Hs.
    assert (E : refresh (blocks_of sqlparse_split sql_code) sql_code s
                = mk_conversions
                    (Some (repeat None
                             (length (blocks_of sqlparse_split sql_code))))
                    (Some sql_code)).
    { unfold refresh. destruct (converted_blocks s); [|reflexivity].
      destruct (sql_snapshot s) as [t|]; [|reflexivity].
      rewrite str_eqb_neq by congruence. reflexivity. }
    rewrite E. cbn [converted_blocks sql_snapshot bind].
    rewrite nothing_pressed_keeps by (rewrite ?repeat_length; auto).
    cbn [bind]. now rewrite final_output_none.
  - intros cbs Hs Hcb Hl. destruct s as [cb sn].
    cbn [sql_snapshot converted_blocks] in Hs, Hcb. subst cb sn.
    assert (E : refresh (blocks_of sqlparse_split sql_code) sql_code
                        (mk_conversions (Some cbs) (Some sql_code))
                = mk_conversions (Some cbs) (Some sql_code)).
    { unfold refresh. cbn [sql_snapshot converted_blocks].
      rewrite str_eqb_refl. reflexivity. }
    rewrite E. cbn [sql_snapshot converted_blocks bind].
    rewrite nothing_pressed_keeps by assumption. reflexivity.
Qed.

End Run.

Lemma script_keeps_session_consistent_witness :
  exists (s' : conversions) (out : option str),
    script line_splitter (lit "#") (fun j => j =? 0)
           (fun _ _ block => lit "df = " ++ block) (lit "Gemini")
           (load_env_from_session
              [entry "gemini_api_key" (Some (lit "k1"))] (fun _ => None))
           (lit "UPDATE t SET x=1;") (mk_conversions None None)
    = Returned (s', out)
    /\ consistent (blocks_of line_splitter) s'
    /\ (out = None -> s' = mk_conversions None None)
    /\ (forall text, out = Some text ->
          exists cbs,
            converted_blocks s' = Some cbs
            /\ sql_snapshot s' = Some (lit "UPDATE t SET x=1;")
            /\ length cbs
               = length (blocks_of line_splitter (lit "UPDATE t SET x=1;"))
            /\ text = final_output (lit "#") cbs).
Proof.
  apply (script_keeps_session_consistent line_splitter (lit "#")
           (fun j => j =? 0) (fun _ _ block => lit "df = " ++ block)
           [entry "gemini_api_key" (Some (lit "k1"))] (fun _ => None)
           (lit "Gemini") (lit "UPDATE t SET x=1;")
           (mk_conversions None None)).
  exact I.
Defined.

Lemma rerun_without_click_witness :
  (sql_snapshot (mk_conversions (Some [Some (lit "old")]) (Some (lit "a;")))
   <> Some (lit "UPDATE t SET x=1;") ->
   script line_splitter (lit "#") (fun _ => false)
          (fun _ _ block => block) (lit "Gemini")
          [entry "GEMINI_API_KEY" (Some (lit "k1"))]
          (lit "UPDATE t SET x=1;")
          (mk_conversions (Some [Some (lit "old")]) (Some (lit "a;")))
   = Returned
       (mk_conversions
          (Some (repeat None
                   (length (blocks_of line_splitter
                                      (lit "UPDATE t SET x=1;")))))
          (Some (lit "UPDATE t SET x=1;")),
        Some []))
  /\ (forall cbs,
         sql_snapshot
           (mk_conversions (Some [Some (lit "old")]) (Some (lit "a;")))
         = Some (lit "UPDATE t SET x=1;") ->
         converted_blocks
           (mk_conversions (Some [Some (lit "old")]) (Some (lit "a;")))
         = Some cbs ->
         length (blocks_of line_splitter (lit "UPDATE t SET x=1;"))
         <= length cbs ->
         script line_splitter (lit "#") (fun _ => false)
                (fun _ _ block => block) (lit "Gemini")
                [entry "GEMINI_API_KEY" (Some (lit "k1"))]
                (lit "UPDATE t SET x=1;")
                (mk_conversions (Some [Some (lit "old")]) (Some (lit "a;")))
         = Returned
             (mk_conversions (Some [Some (lit "old")]) (Some (lit "a;")),
              Some (final_output (lit "#") cbs))).
Proof.
  apply (rerun_without_click line_splitter (lit "#") (fun _ => false)
           (fun _ _ block => block) (lit "Gemini")
           [entry "GEMINI_API_KEY" (Some (lit "k1"))]
           (lit "UPDATE t SET x=1;")
           (mk_conversions (Some [Some (lit "old")]) (Some (lit "a;")))
           (GeminiProvider (Some (lit "k1")))).
  - discriminate.
  - reflexivity.
  - reflexivity.
Defined.
